(** * pdf-to-markdown: the page pipeline of [main.py]

    A shallow embedding of [clean_text], [process_single_page],
    [convert_pdf] and the [limit_upload_size] middleware, followed by the
    properties of the specification that were checked against them.

    Python [str] values are sequences of Unicode code points and are
    modelled as [list N].  The PDF engine (fitz) is an external
    collaborator: what it returns for a page (tables, text blocks, or an
    exception) is an input of the model. *)

From Stdlib Require Import Strings.String Strings.Ascii Numbers.DecimalString.
From Stdlib Require Import List NArith ZArith QArith Bool Lia Arith.
From Stdlib Require Import Sorting.Permutation Sorting.Sorted Lqa.
Import ListNotations.
Close Scope Q_scope.

Set Implicit Arguments.

(** ** Python strings *)

Module Py.

Definition str := list N.

(** A literal: the code points of an ASCII Rocq string. *)
Definition lit (s : String.string) : str :=
  List.map Ascii.N_of_ascii (String.list_ascii_of_string s).

Definition LF : N := 10.        (* '\n' *)
Definition SP : N := 32.        (* ' ' *)
Definition HYPHEN : N := 45.    (* '-' *)
Definition PIPE : N := 124.     (* '|' *)
Definition SHY : N := 173.      (* '\xad', U+00AD *)
Definition UNDERSCORE : N := 95.

Definition between (lo hi c : N) : bool := ((lo <=? c) && (c <=? hi))%N.

(** [str.isspace] for one character, which is also what [\s] matches in
    a [str] pattern and what [split()] and [strip()] cut at: the
    complete list of the Unicode database. *)
Definition isspace (c : N) : bool :=
  between 9 13 c || between 28 32 c || (c =? 133)%N || (c =? 160)%N
  || (c =? 5760)%N || between 8192 8202 c || (c =? 8232)%N || (c =? 8233)%N
  || (c =? 8239)%N || (c =? 8287)%N || (c =? 12288)%N.

(** [[a-z]] in a pattern without flags. *)
Definition islower_az (c : N) : bool := between 97 122 c.

Definition is_ascii (c : N) : bool := (c <? 128)%N.

Definition ascii_alnum (c : N) : bool :=
  between 48 57 c || between 65 90 c || between 97 122 c.

(** The rows of the Unicode character database beyond ASCII that the
    program consults through [\w] and [str.isdigit]; they belong to the
    language runtime and are taken as a parameter.  The ASCII rows are
    written out below. *)
Record UCD := {
  wide_alnum : N -> bool;
  wide_digit : N -> bool
}.

(** [\w] in a [str] pattern: alphanumeric or underscore. *)
Definition isword (U : UCD) (c : N) : bool :=
  if is_ascii c then ascii_alnum c || (c =? UNDERSCORE)%N else wide_alnum U c.

(** [c.isdigit()]. *)
Definition isdigit (U : UCD) (c : N) : bool :=
  if is_ascii c then between 48 57 c else wide_digit U c.

(** The Latin-1 rows (U+0080..U+00FF), nothing known above them. *)
Definition latin1 : UCD := {|
  wide_alnum := fun c =>
    (c =? 170)%N || (c =? 178)%N || (c =? 179)%N || (c =? 181)%N
    || (c =? 185)%N || (c =? 186)%N || between 188 190 c
    || between 192 214 c || between 216 246 c || between 248 255 c;
  wide_digit := fun c => (c =? 178)%N || (c =? 179)%N || (c =? 185)%N
|}.

(** [s.replace(c, '')] for a one-character [c]. *)
Definition remove_char (c : N) (s : str) : str :=
  List.filter (fun d => negb (d =? c)%N) s.

(** [s.replace(c, d)] for one-character [c] and [d]. *)
Definition replace_char (c d : N) (s : str) : str :=
  List.map (fun e => if (e =? c)%N then d else e) s.

Fixpoint lstrip (s : str) : str :=
  match s with
  | c :: t => if isspace c then lstrip t else s
  | [] => []
  end.

Definition rstrip (s : str) : str := rev (lstrip (rev s)).

(** [s.strip()] *)
Definition strip (s : str) : str := rstrip (lstrip s).

(** [s.split()]: [w] is the word being read. *)
Fixpoint split_from (w : str) (s : str) : list str :=
  match s with
  | [] => match w with [] => [] | _ => [w] end
  | c :: t =>
      if isspace c
      then match w with [] => split_from [] t | _ => w :: split_from [] t end
      else split_from (w ++ [c]) t
  end.

Definition split (s : str) : list str := split_from [] s.

(** [sep.join(parts)] *)
Fixpoint join (sep : str) (parts : list str) : str :=
  match parts with
  | [] => []
  | [p] => p
  | p :: rest => p ++ sep ++ join sep rest
  end.

Fixpoint startswith (p s : str) : bool :=
  match p, s with
  | [], _ => true
  | a :: p', b :: s' => (a =? b)%N && startswith p' s'
  | _ :: _, [] => false
  end.

(** [s.endswith(p)] *)
Definition endswith (s p : str) : bool := startswith (rev p) (rev s).

(** [p in s] *)
Fixpoint contains (p s : str) : bool :=
  startswith p s || match s with [] => false | _ :: t => contains p t end.

(** [s.count(p)] for a non-empty [p]: occurrences from left to right
    that do not overlap; [skip] characters of the last occurrence are
    still to be passed. *)
Fixpoint count_from (p : str) (skip : nat) (s : str) : nat :=
  match s with
  | [] => 0
  | _ :: t =>
      match skip with
      | S k => count_from p k t
      | O => if startswith p s
             then S (count_from p (Nat.pred (List.length p)) t)
             else count_from p 0 t
      end
  end.

Definition count (s p : str) : nat := count_from p 0 s.

(** [str(n)] for an [int]. *)
Definition str_of_Z (z : Z) : str := lit (DecimalString.NilZero.string_of_int (Z.to_int z)).
Definition str_of_nat (n : nat) : str := str_of_Z (Z.of_nat n).

(** Exceptions: [Raise msg] carries what [str(e)] gives. *)
Inductive result (A : Type) : Type :=
| Ok (a : A)
| Raise (msg : str).
Arguments Ok {A} a.
Arguments Raise {A} msg.

Definition bind {A B} (m : result A) (f : A -> result B) : result B :=
  match m with
  | Ok a => f a
  | Raise e => Raise e
  end.

(** [xs[i]] *)
Definition index {A} (xs : list A) (i : nat) : result A :=
  match nth_error xs i with
  | Some x => Ok x
  | None => Raise (lit "list index out of range")
  end.

End Py.

Import Py.

Notation "x <- m ;; k" := (bind m (fun x => k))
  (at level 61, m at next level, right associativity).

(** ** [clean_text] *)

Module Clean.
Section WithUCD.

Variable U : UCD.

(** *** [re.sub(r'(\w+)-\s*\n\s*(\w+)', r'\1\2', text)]

    The three functions below are the backtracking matcher of the
    pattern, read from right to left.  A greedy repetition first tries
    to take one more character and falls back to stopping where it is
    when the rest of the pattern fails after that. *)

(** [(\w+)] at the end of the pattern: the longest run, no fallback is
    ever needed.  Gives group 2 and the text after the match. *)
Fixpoint word_run (s : str) : str * str :=
  match s with
  | c :: t => if isword U c
              then let (w, rest) := word_run t in (c :: w, rest)
              else ([], s)
  | [] => ([], [])
  end.

Definition last_word (s : str) : option (str * str) :=
  match word_run s with
  | ([], _) => None
  | (w, rest) => Some (w, rest)
  end.

(** [\s*(\w+)] *)
Fixpoint after_newline (s : str) : option (str * str) :=
  match s with
  | c :: t =>
      match (if isspace c then after_newline t else None) with
      | Some r => Some r
      | None => last_word s
      end
  | [] => None
  end.

(** [\s*\n\s*(\w+)] *)
Fixpoint after_hyphen (s : str) : option (str * str) :=
  match s with
  | c :: t =>
      match (if isspace c then after_hyphen t else None) with
      | Some r => Some r
      | None => if (c =? LF)%N then after_newline t else None
      end
  | [] => None
  end.

(** The whole pattern at the start of [s]: group 1, group 2 and the
    text after the match.  [(\w+)] takes one more character when the
    match can be completed that way, and stops after [c] otherwise. *)
Fixpoint match_here (s : str) : option (str * str * str) :=
  match s with
  | c :: t =>
      if isword U c then
        match match_here t with
        | Some (g1, g2, rest) => Some (c :: g1, g2, rest)
        | None =>
            match t with
            | d :: t' =>
                if (d =? HYPHEN)%N then
                  match after_hyphen t' with
                  | Some (g2, rest) => Some ([c], g2, rest)
                  | None => None
                  end
                else None
            | [] => None
            end
        end
      else None
  | [] => None
  end.

(** [re.sub] scans from the left; where the pattern matches, the
    match is replaced by [\1\2] and the scan resumes after it, otherwise
    the character is copied.  A match is never empty, so the text left
    to scan gets shorter at every step and [fuel] of its length is
    enough ([hyphen_sub_fuel_stable] below). *)
Fixpoint hyphen_sub_fuel (fuel : nat) (s : str) : str :=
  match fuel with
  | O => s
  | S fuel' =>
      match s with
      | [] => []
      | c :: t =>
          match match_here s with
          | Some (g1, g2, rest) => g1 ++ g2 ++ hyphen_sub_fuel fuel' rest
          | None => c :: hyphen_sub_fuel fuel' t
          end
      end
  end.

Definition hyphen_sub (s : str) : str := hyphen_sub_fuel (length s) s.

(** *** [re.sub(r'(?<=[a-z])\s(?=[a-z]{2,})', ' ', text)]

    A match is one whitespace character; what stands before and after
    it is only looked at, in the text as it was. *)
Definition two_lower (s : str) : bool :=
  match s with
  | a :: b :: _ => islower_az a && islower_az b
  | _ => false
  end.

Definition prev_lower (prev : option N) : bool :=
  match prev with
  | Some p => islower_az p
  | None => false
  end.

Fixpoint space_sub_from (prev : option N) (s : str) : str :=
  match s with
  | [] => []
  | c :: t =>
      (if prev_lower prev && isspace c && two_lower t then SP else c)
        :: space_sub_from (Some c) t
  end.

Definition space_sub (s : str) : str := space_sub_from None s.

(** *** [clean_text] *)
Definition clean_text (text : str) : str :=
  match text with
  | [] => []
  | _ =>
      let text := hyphen_sub text in
      let text := remove_char SHY (remove_char SHY text) in
      let text := space_sub text in
      join [SP] (split text)
  end.

End WithUCD.
End Clean.

(** ** What the PDF engine hands to the page renderer *)

Module Fitz.

(** [fitz.Rect]: coordinates are finite floats, every one of which is
    a rational; only their order is ever used here. *)
Record Rect := { x0 : Q; y0 : Q; x1 : Q; y1 : Q }.

(** One detected table: [table.extract()], rows of cells that are a
    [str] or [None], and [table.bbox]. *)
Definition cell := option str.
Record Table := { extract : list (list cell); bbox : Rect }.

(** One entry of [page.get_text("blocks")]: [b[:4]] and [b[4]]. *)
Record Block := { rect : Rect; text : str }.

(** The page as the engine shows it inside the content box: the tables
    of [find_tables] with the "lines" strategy, those with the "text"
    strategy, and the text blocks.  [Broken msg] is a page on which an
    engine call raises an exception whose description is [msg]. *)
Inductive Page :=
| Broken (msg : str)
| Opened (lines_tables text_tables : list Table) (blocks : list Block).

(** The upload as [fitz.open(stream=pdf_bytes)] shows it: the
    single-page documents that [insert_pdf] cuts out of it, in page
    order, or an exception. *)
Inductive Document :=
| Unreadable (msg : str)
| Pages (pages : list Page).

End Fitz.

Import Fitz.

(** ** [process_single_page] *)

Module Renderer.
Section WithEngine.

Variable U : UCD.
(** [Rect.intersects], a primitive of the engine. *)
Variable intersects : Rect -> Rect -> bool.

(** *** Tables *)

(** [row[i] and str(row[i]).strip()], as a truth value. *)
Definition cell_filled (c : cell) : bool :=
  match c with
  | None => false
  | Some [] => false
  | Some s => match strip s with [] => false | _ => true end
  end.

(** [any(row[i] and str(row[i]).strip() for row in data)]: [any] stops
    at the first filled cell; a row too short for [i] raises. *)
Fixpoint any_filled (i : nat) (data : list (list cell)) : result bool :=
  match data with
  | [] => Ok false
  | row :: rest =>
      c <- index row i ;;
      if cell_filled c then Ok true else any_filled i rest
  end.

(** [[any(...) for i in range(len(data[0]))]], from column [i] on. *)
Fixpoint valid_cols_from (i n : nat) (data : list (list cell))
  : result (list bool) :=
  match n with
  | O => Ok []
  | S n' =>
      v <- any_filled i data ;;
      vs <- valid_cols_from (S i) n' data ;;
      Ok (v :: vs)
  end.

Definition valid_columns (data : list (list cell)) : result (list bool) :=
  match data with
  | [] => Ok []
  | row0 :: _ => valid_cols_from 0 (length row0) data
  end.

(** [str(row[i]).replace("\n", " ").strip() if row[i] else ""] *)
Definition clean_cell (c : cell) : str :=
  match c with
  | None => []
  | Some [] => []
  | Some s => strip (replace_char LF SP s)
  end.

(** [[... for i, is_valid in enumerate(valid_cols) if is_valid]], from
    column [i] on. *)
Fixpoint clean_row_from (i : nat) (valid : list bool) (row : list cell)
  : result (list str) :=
  match valid with
  | [] => Ok []
  | is_valid :: valid' =>
      if is_valid then
        c <- index row i ;;
        cs <- clean_row_from (S i) valid' row ;;
        Ok (clean_cell c :: cs)
      else clean_row_from (S i) valid' row
  end.

(** ["| " + " | ".join(cells) + " |\n"] *)
Definition md_line (cells : list str) : str :=
  lit "| " ++ join (lit " | ") cells ++ lit " |" ++ [LF].

(** [any(clean_row)] *)
Definition any_text (cells : list str) : bool :=
  existsb (fun c => match c with [] => false | _ => true end) cells.

(** The loop over the rows: [md] and [header_done] are its state. *)
Fixpoint render_rows (valid : list bool) (data : list (list cell))
                     (md : str) (header_done : bool) : result str :=
  match data with
  | [] => Ok md
  | row :: rest =>
      clean_row <- clean_row_from 0 valid row ;;
      if negb (any_text clean_row) then render_rows valid rest md header_done
      else
        let md := md ++ md_line clean_row in
        if negb header_done
        then render_rows valid rest
               (md ++ md_line (repeat (lit "---") (length clean_row))) true
        else render_rows valid rest md header_done
  end.

Definition render_table (data : list (list cell)) : result str :=
  valid_cols <- valid_columns data ;;
  render_rows valid_cols data [] false.

(** [md.replace("|", "").replace("-", "")] *)
Definition residue (md : str) : str :=
  remove_char HYPHEN (remove_char PIPE md).

(** [sum(c.isdigit() for c in all_text)] *)
Definition digit_count (s : str) : nat :=
  length (filter (isdigit U) s).

(** [digit_count > 5 or len(all_text) < 200] *)
Definition plausible (md : str) : bool :=
  let all_text := residue md in
  (5 <? digit_count all_text) || (length all_text <? 200).

(** The body of [for table in tabs] on the two lists it appends to. *)
Definition table_step (acc : list str * list Rect) (table : Table)
  : result (list str * list Rect) :=
  let (table_markdowns, table_bboxes) := acc in
  match extract table with
  | [] => Ok acc
  | data =>
      md <- render_table data ;;
      match md with
      | [] => Ok acc
      | _ =>
          if plausible md
          then Ok (table_markdowns ++ [md], table_bboxes ++ [bbox table])
          else Ok acc
      end
  end.

Fixpoint tables_loop (acc : list str * list Rect) (tabs : list Table)
  : result (list str * list Rect) :=
  match tabs with
  | [] => Ok acc
  | table :: rest =>
      acc' <- table_step acc table ;;
      tables_loop acc' rest
  end.

(** *** Text blocks *)

(** The sort key [(b[1], b[0])], compared as tuples. *)
Definition key_le (a b : Block) : bool :=
  match (y0 (rect a) ?= y0 (rect b))%Q with
  | Lt => true
  | Gt => false
  | Eq => match (x0 (rect a) ?= x0 (rect b))%Q with
          | Gt => false
          | _ => true
          end
  end.

(** [blocks.sort(key=...)] is stable: a block goes in front of the
    first later block whose key is not smaller. *)
Fixpoint insert_block (b : Block) (sorted : list Block) : list Block :=
  match sorted with
  | [] => [b]
  | c :: rest => if key_le b c then b :: sorted else c :: insert_block b rest
  end.

Fixpoint sort_blocks (blocks : list Block) : list Block :=
  match blocks with
  | [] => []
  | b :: rest => insert_block b (sort_blocks rest)
  end.

(** The loop over the sorted blocks: [parts] is [page_text_parts]. *)
Fixpoint blocks_loop (table_bboxes : list Rect) (blocks : list Block)
                     (parts : list str) : list str :=
  match blocks with
  | [] => parts
  | b :: rest =>
      if existsb (intersects (rect b)) table_bboxes
      then blocks_loop table_bboxes rest parts
      else
        let text := strip (text b) in
        match text with
        | [] => blocks_loop table_bboxes rest parts
        | _ =>
            if 5 <? length text
            then blocks_loop table_bboxes rest
                   (parts ++ [Clean.clean_text U text])
            else blocks_loop table_bboxes rest parts
        end
  end.

(** *** The page section *)

Definition heading (page_num : nat) : str :=
  lit "## Page " ++ str_of_nat (page_num + 1).

(** The [try] block. *)
Definition render_page (page : Page) (page_num : nat) : result str :=
  match page with
  | Broken msg => Raise msg
  | Opened lines_tables text_tables blocks =>
      let tabs := match lines_tables with
                  | [] => text_tables
                  | _ => lines_tables
                  end in
      acc <- tables_loop ([], []) tabs ;;
      let (table_markdowns, table_bboxes) := acc in
      let page_text_parts :=
        blocks_loop table_bboxes (sort_blocks blocks) [] in
      let res := [heading page_num] in
      let res := match table_markdowns with
                 | [] => res
                 | _ => res ++ [lit "### Tables" ++ [LF]
                                 ++ join [LF] table_markdowns]
                 end in
      let res := match page_text_parts with
                 | [] => res
                 | _ => res ++ [lit "### Text Content" ++ [LF]
                                 ++ join [LF; LF] page_text_parts]
                 end in
      Ok (join [LF; LF] res)
  end.

(** [try: ... except Exception as e: return f"## Page ..."] *)
Definition process_single_page (page : Page) (page_num : nat) : str :=
  match render_page page page_num with
  | Ok section => section
  | Raise e =>
      heading page_num ++ [LF; LF] ++ lit "Processing error: " ++ e
  end.

End WithEngine.
End Renderer.

(** ** [convert_pdf] and the upload-size middleware *)

Module Service.

(** The limits read from the environment when the process starts. *)
Record Config := { MAX_FILE_SIZE : Z; MAX_PAGES : Z }.

Definition default_config : Config :=
  {| MAX_FILE_SIZE := 50 * 1024 * 1024; MAX_PAGES := 300 |}.

Record UploadFile := { filename : str; document : Document }.

Record Response := {
  pages_processed : nat;
  processing_time_sec : Q;
  content : str
}.

Inductive outcome :=
| Success (r : Response)
| HTTPException (status_code : Z) (detail : str).

(** What the handler does to the uploaded document and to the worker
    pool, in the order it does it. *)
Inductive event :=
| OpenDocument                 (* entering [with fitz.open(...) as main_doc] *)
| SplitPage (i : nat)          (* [insert_pdf(main_doc, from_page=i, to_page=i)] *)
| CloseDocument                (* leaving the [with] block, either way *)
| Submit (i : nat).            (* [run_in_executor(executor, process_single_page, ...)] *)

Definition is_submit (e : event) : bool :=
  match e with Submit _ => true | _ => false end.

Definition separator : str := [LF] ++ lit "---" ++ [LF].

Section Handler.

Variable U : UCD.
Variable intersects : Rect -> Rect -> bool.
Variable cfg : Config.

(** [tasks]: the page buffers with their indices. *)
Definition tasks_of (pages : list Page) : list (Page * nat) :=
  combine pages (seq 0 (length pages)).

(** What [asyncio.gather] returns: one section per task, in the
    order of the tasks. *)
Definition gather (tasks : list (Page * nat)) : list str :=
  map (fun t => Renderer.process_single_page U intersects (fst t) (snd t))
      tasks.

(** [execution_time] is the rounded reading of the timer, an input. *)
Definition convert_pdf (file : UploadFile) (execution_time : Q)
  : list event * outcome :=
  if negb (endswith (filename file) (lit ".pdf"))
  then ([], HTTPException 400 (lit "Only PDF files are allowed."))
  else
    match document file with
    | Unreadable _ =>
        ([], HTTPException 500 (lit "An error occurred during conversion."))
    | Pages pages =>
        let total_pages := length pages in
        if (Z.of_nat total_pages >? MAX_PAGES cfg)%Z
        then ([OpenDocument; CloseDocument],
              HTTPException 413
                (lit "PDF too long (" ++ str_of_nat total_pages
                   ++ lit " pages). Max is " ++ str_of_Z (MAX_PAGES cfg)
                   ++ lit "."))
        else
          let tasks := tasks_of pages in
          let results := gather tasks in
          (OpenDocument :: map (fun t => SplitPage (snd t)) tasks
             ++ CloseDocument :: map (fun t => Submit (snd t)) tasks,
           Success {| pages_processed := length results;
                      processing_time_sec := execution_time;
                      content := join separator results |})
    end.

End Handler.

(** *** [limit_upload_size] *)

Record Request := {
  method : str;
  path : str;
  content_length : option str;   (* [request.headers.get('content-length')] *)
  body : list N                  (* the bytes that follow the headers *)
}.

Inductive verdict :=
| JSONResponse (status_code : Z) (detail : str)  (* answered by the guard *)
| CallNext                               (* handed on: the body gets parsed *)
| ValueError.                            (* [int()] refused the header *)

Section Middleware.

(** The built-in [int] on a [str]; [None] is a [ValueError]. *)
Variable int : str -> option Z.
Variable cfg : Config.

Definition str_eqb (a b : str) : bool :=
  (length a =? length b) && startswith a b.

Definition limit_upload_size (request : Request) : verdict :=
  if str_eqb (method request) (lit "POST")
     && str_eqb (path request) (lit "/convert")
  then
    match content_length request with
    | None => CallNext
    | Some [] => CallNext
    | Some v =>
        match int v with
        | None => ValueError
        | Some n =>
            if (n >? MAX_FILE_SIZE cfg)%Z
            then JSONResponse 413
                   (lit "File too large. Maximum allowed size is "
                      ++ str_of_Z (MAX_FILE_SIZE cfg / (1024 * 1024))
                      ++ lit "MB.")
            else CallNext
        end
    end
  else CallNext.

End Middleware.

(** A reading of [int] for the witnesses: plain ASCII decimal digits. *)
Fixpoint digits_value (acc : Z) (s : str) : option Z :=
  match s with
  | [] => Some acc
  | c :: t =>
      if between 48 57 c
      then digits_value (10 * acc + (Z.of_N c - 48)) t
      else None
  end.

Definition int_of_digits (s : str) : option Z :=
  match s with
  | [] => None
  | _ => digits_value 0 s
  end.

End Service.

Import Service.

(** ** The settings read when the module is loaded *)

Module Settings.

Record Settings := {
  ENV : str;
  HOST : str;
  PORT : Z;
  RELOAD : bool;
  MAX_WORKERS : Z;
  LOG_LEVEL : str;
  limits : Config;              (* [MAX_FILE_SIZE] and [MAX_PAGES] *)
  RATE_LIMIT : str
}.

Section Environment.

(** The built-in [int] on a [str] ([None] is a [ValueError]) and
    [str.lower] belong to the language; [getenv] is [os.getenv] once
    [load_dotenv()] has run. *)
Variable int : str -> option Z.
Variable lower : str -> str.
Variable getenv : str -> option str.

(** [os.getenv(key, default)] with a [str] default. *)
Definition getenv_str (key default : str) : str :=
  match getenv key with
  | Some v => v
  | None => default
  end.

(** [int(os.getenv(key, default))] with an [int] default. *)
Definition getenv_int (key : str) (default : Z) : option Z :=
  match getenv key with
  | Some v => int v
  | None => Some default
  end.

(** The assignments at the top of the module, in their order; [None]
    when one of the [int] calls raises. *)
Definition load : option Settings :=
  let ENV := getenv_str (lit "APP_ENV") (lit "local") in
  let HOST := getenv_str (lit "APP_HOST") (lit "127.0.0.1") in
  match getenv_int (lit "APP_PORT") 8000 with
  | None => None
  | Some PORT =>
      let RELOAD :=
        str_eqb (lower (getenv_str (lit "APP_RELOAD") (lit "true")))
                (lit "true") in
      match getenv_int (lit "MAX_WORKERS") 4 with
      | None => None
      | Some MAX_WORKERS =>
          let LOG_LEVEL := getenv_str (lit "LOG_LEVEL") (lit "INFO") in
          match getenv_int (lit "MAX_FILE_SIZE_MB") 50 with
          | None => None
          | Some megabytes =>
              let MAX_FILE_SIZE := (megabytes * 1024 * 1024)%Z in
              match getenv_int (lit "MAX_PAGES") 300 with
              | None => None
              | Some MAX_PAGES =>
                  let RATE_LIMIT :=
                    getenv_str (lit "RATE_LIMIT") (lit "2/minute") in
                  Some {| ENV := ENV; HOST := HOST; PORT := PORT;
                          RELOAD := RELOAD; MAX_WORKERS := MAX_WORKERS;
                          LOG_LEVEL := LOG_LEVEL;
                          limits := {| Service.MAX_FILE_SIZE := MAX_FILE_SIZE;
                                       Service.MAX_PAGES := MAX_PAGES |};
                          RATE_LIMIT := RATE_LIMIT |}
              end
          end
      end
  end.

End Environment.

(** [reload=RELOAD if ENV == "local" else False] *)
Definition uvicorn_reload (s : Settings) : bool :=
  if str_eqb (ENV s) (lit "local") then RELOAD s else false.

End Settings.

(** * Vocabulary of the properties *)

Definition spaceless (w : str) : Prop := Forall (fun c => isspace c = false) w.

(** A word of [split]: not empty, no whitespace in it. *)
Definition word (w : str) : Prop := w <> [] /\ spaceless w.

(** What the space pattern does to one character. *)
Definition space_to_SP (c d : N) : Prop :=
  d = c \/ (isspace c = true /\ d = SP).

(** Two whitespace characters next to each other. *)
Fixpoint doubled_space (s : str) : bool :=
  match s with
  | a :: t =>
      match t with
      | b :: _ => (isspace a && isspace b) || doubled_space t
      | [] => false
      end
  | [] => false
  end.

(** Single-spaced and trimmed: nothing for [strip] to cut, no whitespace
    twice in a row, and no whitespace other than the plain space. *)
Definition single_spaced_trimmed (s : str) : Prop :=
  strip s = s /\ doubled_space s = false
  /\ (forall c, In c s -> isspace c = true -> c = SP).

(** What a section must not hold for the separators of the response to
    be countable: no line after its first that is exactly "---". *)
Definition separator_free (section : str) : Prop :=
  contains separator (section ++ [LF]) = false.

(** The count of C1, in the integers. *)
Definition separators_match (r : Response) : Prop :=
  Z.of_nat (count (content r) separator)
  = (Z.of_nat (pages_processed r) - 1)%Z.

(** The section that reports an exception. *)
Definition error_section (page_num : nat) (msg : str) : str :=
  lit "## Page " ++ str_of_nat (page_num + 1) ++ [LF; LF]
    ++ lit "Processing error: " ++ msg.

(** ** Sample inputs *)

Module Sample.

Definition no_overlap : Rect -> Rect -> bool := fun _ _ => false.

Definition at_row (y : Q) : Rect := {| x0 := 0; y0 := y; x1 := 100; y1 := y + 10 |}.

Definition block (y : Q) (s : str) : Block := {| rect := at_row y; text := s |}.

(** A page with one paragraph. *)
Definition prose (s : str) : Page := Opened [] [] [block 50 s].

(** A table whose second row is one cell short: indexing it raises. *)
Definition ragged : Table :=
  {| extract := [[Some (lit "a"); None]; [None]]; bbox := at_row 50 |}.

Definition broken_page : Page := Opened [ragged] [] [].

Definition three_pages : UploadFile :=
  {| filename := lit "report.pdf";
     document := Pages [prose (lit "first page"); broken_page;
                        prose (lit "third page")] |}.

(** A paragraph that is three dashes followed by three soft hyphens,
    and an ordinary paragraph below it. *)
Definition dashes_page : Page :=
  Opened [] [] [block 50 (lit "---" ++ [SHY; SHY; SHY]);
                block 70 (lit "abcdef")].

Definition dashes_upload : UploadFile :=
  {| filename := lit "rule.pdf"; document := Pages [dashes_page] |}.

Definition empty_upload : UploadFile :=
  {| filename := lit "empty.pdf"; document := Pages [] |}.

(** Rectangles on the same row overlap. *)
Definition same_row (a b : Rect) : bool := Qeq_bool (y0 a) (y0 b).

(** A small table on row 10, a paragraph on top of it, a short
    paragraph and a paragraph that is short only once cleaned. *)
Definition mixed_tables : list Table :=
  [{| extract := [[Some (lit "n"); Some (lit "7")]]; bbox := at_row 10 |}].

Definition mixed_blocks : list Block :=
  [block 30 (lit "tiny"); block 10 (lit "inside the table");
   block 20 (lit "ab   cd")].

Definition mixed_page : Page := Opened mixed_tables [] mixed_blocks.

(** Two rows of three cells, nothing but blanks in the middle. *)
Definition grid : list (list cell) :=
  [[Some (lit "a"); None; Some (lit "b")];
   [Some (lit "1"); Some (lit " "); Some (lit "22")]].

(** A one-cell table: [digits] followed by letters, 294 characters in
    all, so that the rendered text without its bars and dashes is 300
    characters long. *)
Definition long_table (digits : str) : Table :=
  {| extract := [[Some (digits ++ repeat 120%N (294 - length digits))]];
     bbox := at_row 50 |}.

End Sample.

(** ** Vocabulary of the page properties *)

(** The test that [process_single_page] applies to a block: it touches
    no accepted table and its stripped text has more than 5 characters. *)
Definition kept_block (intersects : Rect -> Rect -> bool)
           (table_bboxes : list Rect) (b : Block) : bool :=
  negb (existsb (intersects (rect b)) table_bboxes)
  && (5 <? length (strip (text b))).

(** The test as C5 words it: the length is taken after cleaning. *)
Definition kept_if_cleaned_long (U : UCD) (intersects : Rect -> Rect -> bool)
           (table_bboxes : list Rect) (b : Block) : bool :=
  negb (existsb (intersects (rect b)) table_bboxes)
  && (5 <? length (Clean.clean_text U (strip (text b)))).

Definition prose_of (U : UCD) (b : Block) : str :=
  Clean.clean_text U (strip (text b)).

(** The Markdown of a table, empty when rendering raises. *)
Definition markdown_of (t : Table) : str :=
  match Renderer.render_table (extract t) with
  | Ok md => md
  | Raise _ => []
  end.

(** A table that ends up in [table_markdowns]. *)
Definition accepted (U : UCD) (t : Table) : bool :=
  match markdown_of t with
  | [] => false
  | md => Renderer.plausible U md
  end.

(** ** Vocabulary of the table properties *)

(** A grid: every row has [w] cells. *)
Definition rectangular (w : nat) (data : list (list cell)) : Prop :=
  Forall (fun row => length row = w) data.

(** Column [j] exists in every row and holds no filled cell. *)
Definition blank_column (j : nat) (data : list (list cell)) : Prop :=
  Forall (fun row => exists c, nth_error row j = Some c
                               /\ Renderer.cell_filled c = false) data.

Fixpoint remove_nth {A : Type} (j : nat) (l : list A) {struct l} : list A :=
  match l with
  | [] => []
  | x :: t => match j with
              | O => t
              | S j' => x :: remove_nth j' t
              end
  end.

(** The grid without its column [j]. *)
Definition drop_column (j : nat) (data : list (list cell)) : list (list cell) :=
  map (remove_nth j) data.

(** Some row has a filled cell in column [i]. *)
Definition column_filled (i : nat) (data : list (list cell)) : bool :=
  existsb (fun row => match nth_error row i with
                      | Some c => Renderer.cell_filled c
                      | None => false
                      end) data.

(** The cleaned cells of the valid columns of a row. *)
Fixpoint pick (valid : list bool) (row : list cell) : list str :=
  match valid, row with
  | v :: valid', c :: row' =>
      if v then Renderer.clean_cell c :: pick valid' row' else pick valid' row'
  | _, _ => []
  end.

(** The lines that the row loop writes, as lists of cells: every row
    with some text, and the dashes after the first of them. *)
Fixpoint emitted (rows : list (list str)) (header_done : bool)
  : list (list str) :=
  match rows with
  | [] => []
  | r :: rest =>
      if negb (Renderer.any_text r) then emitted rest header_done
      else if negb header_done
           then r :: repeat (lit "---") (length r) :: emitted rest true
           else r :: emitted rest header_done
  end.

Definition kept_columns (valid : list bool) : nat :=
  length (filter (fun v => v) valid).

(** Where column [k] of the grid without column [j] was before. *)
Definition shift (j k : nat) : nat := if k <? j then k else S k.

(** The two optional parts of a page section. *)
Definition tables_part (table_markdowns : list str) : list str :=
  match table_markdowns with
  | [] => []
  | _ => [lit "### Tables" ++ [LF] ++ join [LF] table_markdowns]
  end.

Definition text_part (page_text_parts : list str) : list str :=
  match page_text_parts with
  | [] => []
  | _ => [lit "### Text Content" ++ [LF] ++ join [LF; LF] page_text_parts]
  end.

(** The tables the page loop runs over: those of the "lines" strategy,
    those of the "text" strategy when there are none. *)
Definition tabs_of (lines_tables text_tables : list Table) : list Table :=
  match lines_tables with
  | [] => text_tables
  | _ => lines_tables
  end.


(** ** Vocabulary of the further properties *)

(** A character of a word fragment: matched by [\w], no whitespace, not
    the soft hyphen. *)
Definition wordchar (U : UCD) (c : N) : Prop :=
  isword U c = true /\ isspace c = false /\ c <> SHY.

(** A whitespace character that [\w] does not match. *)
Definition blank (U : UCD) (c : N) : Prop :=
  isspace c = true /\ isword U c = false.

(** The end of a word: the text stops or goes on with a character that
    [\w] does not match. *)
Definition word_ends (U : UCD) (rest : str) : Prop :=
  match rest with
  | [] => True
  | c :: _ => isword U c = false
  end.

(** The order of the sort keys [(b[1], b[0])]. *)
Definition key_before (a b : Block) : Prop := Renderer.key_le a b = true.

(** Equal sort keys. *)
Definition same_key (a b : Block) : bool :=
  Renderer.key_le a b && Renderer.key_le b a.

(** A grid with no filled cell. *)
Definition all_blank (data : list (list cell)) : Prop :=
  Forall (Forall (fun c => Renderer.cell_filled c = false)) data.

(** The environment of a sample deployment. *)
Definition sample_env (key : str) : option str :=
  if str_eqb key (lit "MAX_FILE_SIZE_MB") then Some (lit "10")
  else if str_eqb key (lit "APP_ENV") then Some (lit "production")
  else None.

(** * Properties *)

(** ** Characters *)

Ltac char_facts :=
  unfold isspace, islower_az, isword, isdigit, is_ascii, ascii_alnum, between,
         LF, SP, SHY, HYPHEN, PIPE, UNDERSCORE in *;
  repeat match goal with
         | H : _ && _ = true |- _ => apply andb_prop in H; destruct H
         | H : _ || _ = false |- _ => apply orb_false_elim in H; destruct H
         | H : (_ <=? _)%N = true |- _ => apply N.leb_le in H
         | H : (_ <=? _)%N = false |- _ => apply N.leb_gt in H
         | H : (_ <? _)%N = true |- _ => apply N.ltb_lt in H
         | H : (_ <? _)%N = false |- _ => apply N.ltb_ge in H
         | H : (_ =? _)%N = true |- _ => apply N.eqb_eq in H
         | H : (_ =? _)%N = false |- _ => apply N.eqb_neq in H
         end.

Lemma isspace_LF : isspace LF = true.
Proof. reflexivity. Qed.

Lemma isspace_SP : isspace SP = true.
Proof. reflexivity. Qed.

Lemma isspace_SHY : isspace SHY = false.
Proof. reflexivity. Qed.

Lemma islower_not_space c : islower_az c = true -> isspace c = false.
Proof.
  intros H. char_facts.
  repeat (apply orb_false_intro); try (apply andb_false_iff);
    try (apply N.eqb_neq; lia);
    try (left; apply N.leb_gt; lia); try (right; apply N.leb_gt; lia).
Qed.

(** ** [split] and [join] *)

Lemma spaceless_app w c :
  spaceless w -> isspace c = false -> spaceless (w ++ [c]).
Proof.
  intros Hw Hc. apply Forall_app. split; [assumption | constructor; auto].
Qed.

Lemma split_from_words s : forall w,
  spaceless w -> Forall word (split_from w s).
Proof.
  induction s as [|c t IH]; intros w Hw; simpl.
  - destruct w; constructor; [split; [discriminate | assumption] | constructor].
  - destruct (isspace c) eqn:Hc.
    + destruct w as [|a w'].
      * apply IH. constructor.
      * constructor; [split; [discriminate | assumption] |].
        apply IH. constructor.
    + apply IH. now apply spaceless_app.
Qed.

Lemma split_words s : Forall word (split s).
Proof. apply split_from_words. constructor. Qed.

(** Reading a run without whitespace only extends the current word. *)
Lemma split_from_spaceless v : forall w rest,
  spaceless v -> split_from w (v ++ rest) = split_from (w ++ v) rest.
Proof.
  induction v as [|c v IH]; intros w rest Hv; simpl.
  - now rewrite app_nil_r.
  - inversion Hv as [|? ? Hc Hv']; subst. rewrite Hc.
    rewrite IH by assumption. now rewrite <- app_assoc.
Qed.

Lemma split_join ws : Forall word ws -> split (join [SP] ws) = ws.
Proof.
  unfold split. induction ws as [|w ws IH]; intros H; [reflexivity|].
  inversion H as [|? ? [Hne Hw] Hws]; subst.
  destruct ws as [|w2 ws'].
  - simpl. rewrite <- (app_nil_r w) at 1.
    rewrite split_from_spaceless by assumption. simpl.
    destruct w; [contradiction | reflexivity].
  - change (join [SP] (w :: w2 :: ws'))
      with (w ++ [SP] ++ join [SP] (w2 :: ws')).
    rewrite split_from_spaceless by assumption.
    change ([SP] ++ join [SP] (w2 :: ws')) with (SP :: join [SP] (w2 :: ws')).
    cbn [split_from app]. rewrite isspace_SP.
    destruct w; [contradiction|]. f_equal. now apply IH.
Qed.

(** Characters of a joined text come from the parts or the separator. *)
Lemma join_chars (P : N -> Prop) sep ws :
  Forall P sep -> Forall (Forall P) ws -> Forall P (join sep ws).
Proof.
  intros Hsep. induction ws as [|w ws IH]; intros H; [constructor|].
  inversion H; subst. destruct ws as [|w2 ws'].
  - assumption.
  - change (join sep (w :: w2 :: ws')) with (w ++ sep ++ join sep (w2 :: ws')).
    rewrite !Forall_app. auto.
Qed.

Lemma split_from_chars (P : N -> Prop) s : forall w,
  Forall P w -> Forall P s -> Forall (Forall P) (split_from w s).
Proof.
  induction s as [|c t IH]; intros w Hw Hs; simpl.
  - destruct w; repeat constructor; inversion Hw; assumption.
  - inversion Hs; subst. destruct (isspace c).
    + destruct w; [apply IH; auto | constructor; [assumption | apply IH; auto]].
    + apply IH; [apply Forall_app; auto | assumption].
Qed.

(** ** The hyphenation pattern *)

Section HyphenFacts.

Variable U : UCD.

Lemma word_run_length s :
  forall w rest, Clean.word_run U s = (w, rest) ->
                 length s = length w + length rest.
Proof.
  induction s as [|c t IH]; simpl; intros w rest H.
  - inversion H; reflexivity.
  - destruct (isword U c).
    + destruct (Clean.word_run U t) as [w' rest'] eqn:E.
      inversion H; subst. simpl. f_equal. now apply IH.
    + inversion H; subst. reflexivity.
Qed.

Lemma last_word_shorter s g rest :
  Clean.last_word U s = Some (g, rest) -> length rest < length s.
Proof.
  unfold Clean.last_word. destruct (Clean.word_run U s) as [w r] eqn:E.
  apply word_run_length in E. destruct w; [discriminate|].
  intros H; inversion H; subst. simpl in E. lia.
Qed.

Lemma after_newline_shorter s : forall g rest,
  Clean.after_newline U s = Some (g, rest) -> length rest < length s.
Proof.
  induction s as [|c t IH]; simpl; intros g rest H; [discriminate|].
  destruct (isspace c).
  - destruct (Clean.after_newline U t) as [[g' r']|] eqn:E.
    + inversion H; subst. specialize (IH _ _ eq_refl). lia.
    + apply last_word_shorter in H. simpl in H. lia.
  - apply last_word_shorter in H. simpl in H. lia.
Qed.

Lemma after_hyphen_shorter s : forall g rest,
  Clean.after_hyphen U s = Some (g, rest) -> length rest < length s.
Proof.
  induction s as [|c t IH]; simpl; intros g rest H; [discriminate|].
  assert (Hnl : (if (c =? LF)%N then Clean.after_newline U t else None)
                = Some (g, rest) -> length rest < S (length t)).
  { destruct (c =? LF)%N; [|discriminate].
    intros E. apply after_newline_shorter in E. lia. }
  destruct (isspace c).
  - destruct (Clean.after_hyphen U t) as [[g' r']|] eqn:E.
    + inversion H; subst. specialize (IH _ _ eq_refl). lia.
    + auto.
  - auto.
Qed.

(** A match takes at least one character. *)
Lemma match_here_shorter s : forall g1 g2 rest,
  Clean.match_here U s = Some (g1, g2, rest) -> length rest < length s.
Proof.
  induction s as [|c t IH]; simpl; intros g1 g2 rest H; [discriminate|].
  destruct (isword U c); [|discriminate].
  destruct (Clean.match_here U t) as [[[a b] r]|] eqn:E.
  - inversion H; subst. specialize (IH _ _ _ eq_refl). lia.
  - destruct t as [|d t']; [discriminate|].
    destruct (d =? HYPHEN)%N; [|discriminate].
    destruct (Clean.after_hyphen U t') as [[b r]|] eqn:E2; [|discriminate].
    inversion H; subst. apply after_hyphen_shorter in E2. simpl. lia.
Qed.

(** The fuel of [hyphen_sub] never runs out: more fuel changes nothing. *)
Lemma hyphen_sub_fuel_stable n : forall s m,
  length s <= n -> length s <= m ->
  Clean.hyphen_sub_fuel U n s = Clean.hyphen_sub_fuel U m s.
Proof.
  induction n as [|n IH]; intros s m Hn Hm.
  - destruct s; [|simpl in Hn; lia]. destruct m; reflexivity.
  - destruct m as [|m].
    + destruct s; [reflexivity | simpl in Hm; lia].
    + simpl. destruct s as [|c t]; [reflexivity|].
      destruct (Clean.match_here U (c :: t)) as [[[g1 g2] rest]|] eqn:E.
      * apply match_here_shorter in E. simpl in *.
        do 2 f_equal. apply IH; lia.
      * f_equal. simpl in *. apply IH; lia.
Qed.

(** The pattern contains a line feed, so does every match. *)
Lemma after_hyphen_needs_LF s :
  Clean.after_hyphen U s <> None -> In LF s.
Proof.
  induction s as [|c t IH]; simpl; intros H; [contradiction|].
  destruct (c =? LF)%N eqn:Ec.
  - apply N.eqb_eq in Ec. now left.
  - right. apply IH. destruct (isspace c); [|contradiction].
    destruct (Clean.after_hyphen U t); [discriminate | contradiction].
Qed.

Lemma match_here_needs_LF s :
  Clean.match_here U s <> None -> In LF s.
Proof.
  induction s as [|c t IH]; simpl; intros H; [contradiction|].
  right. destruct (isword U c); [|contradiction].
  destruct (Clean.match_here U t) as [[[a b] r]|] eqn:E.
  - apply IH. discriminate.
  - destruct t as [|d t']; [contradiction|].
    destruct (d =? HYPHEN)%N; [|contradiction].
    right. apply after_hyphen_needs_LF.
    destruct (Clean.after_hyphen U t') as [[b r]|]; [discriminate | contradiction].
Qed.

Lemma hyphen_sub_fuel_no_LF n : forall s,
  ~ In LF s -> Clean.hyphen_sub_fuel U n s = s.
Proof.
  induction n as [|n IH]; intros s H; [reflexivity|].
  simpl. destruct s as [|c t]; [reflexivity|].
  destruct (Clean.match_here U (c :: t)) as [[[g1 g2] rest]|] eqn:E.
  - exfalso. apply H. apply match_here_needs_LF. rewrite E. discriminate.
  - f_equal. apply IH. intros Hin. apply H. now right.
Qed.

Lemma hyphen_sub_no_LF s : ~ In LF s -> Clean.hyphen_sub U s = s.
Proof. apply hyphen_sub_fuel_no_LF. Qed.

End HyphenFacts.

(** ** Soft hyphens and the space pattern *)

Lemma remove_char_absent c s : ~ In c (remove_char c s).
Proof.
  unfold remove_char. intros H. apply filter_In in H. destruct H as [_ H].
  rewrite N.eqb_refl in H. discriminate.
Qed.

Lemma remove_char_id c s : ~ In c s -> remove_char c s = s.
Proof.
  unfold remove_char. induction s as [|d t IH]; intros H; [reflexivity|].
  simpl. destruct (d =? c)%N eqn:E.
  - apply N.eqb_eq in E. subst. exfalso. apply H. now left.
  - simpl. f_equal. apply IH. intros Hin. apply H. now right.
Qed.

Lemma remove_char_keeps (P : N -> Prop) c s :
  Forall P s -> Forall P (remove_char c s).
Proof.
  unfold remove_char. intros H. apply Forall_forall. intros x Hx.
  apply filter_In in Hx. destruct Hx as [Hx _].
  rewrite Forall_forall in H. auto.
Qed.

Lemma space_sub_from_pointwise s : forall prev,
  Forall2 space_to_SP s (Clean.space_sub_from prev s).
Proof.
  induction s as [|c t IH]; intros prev; simpl; constructor; [|apply IH].
  destruct (Clean.prev_lower prev); simpl; [|now left].
  destruct (isspace c) eqn:Hc; simpl; [|now left].
  destruct (Clean.two_lower t); [right; auto | now left].
Qed.

Lemma space_sub_from_length s : forall prev,
  length (Clean.space_sub_from prev s) = length s.
Proof. induction s; intros; simpl; auto. Qed.

(** Whitespace stays whitespace and the rest stays what it is, so the
    words that [split] finds are the same. *)
Lemma split_from_pointwise s s' :
  Forall2 space_to_SP s s' -> forall w, split_from w s' = split_from w s.
Proof.
  induction 1 as [|c d t t' Hcd Ht IH]; intros w; [reflexivity|].
  simpl. destruct Hcd as [-> | [Hc ->]].
  - destruct (isspace c); [destruct w; now rewrite IH | apply IH].
  - rewrite Hc, isspace_SP. destruct w; now rewrite IH.
Qed.

Lemma space_sub_from_id s : forall prev,
  Forall (fun c => isspace c = true -> c = SP) s ->
  Clean.space_sub_from prev s = s.
Proof.
  induction s as [|c t IH]; intros prev H; [reflexivity|].
  inversion H as [|? ? Hc Ht]; subst. simpl. rewrite IH by assumption.
  f_equal. destruct (Clean.prev_lower prev); simpl; [|reflexivity].
  destruct (isspace c) eqn:E; simpl; [|reflexivity].
  destruct (Clean.two_lower t); [symmetry; auto | reflexivity].
Qed.

(** ** The shape of a normalised text *)

Lemma Forall2_space_keeps (P : N -> Prop) s s' :
  Forall2 space_to_SP s s' -> P SP -> Forall P s -> Forall P s'.
Proof.
  induction 1 as [|c d t t' Hcd Ht IH]; intros HP H; [constructor|].
  inversion H; subst. constructor; [|auto].
  destruct Hcd as [-> | [_ ->]]; assumption.
Qed.

Lemma word_head w r :
  word w -> exists c t, w ++ r = c :: t /\ isspace c = false.
Proof.
  intros [Hne Hw]. destruct w as [|c w']; [contradiction|].
  inversion Hw; subst. now exists c, (w' ++ r).
Qed.

Lemma join_head ws :
  ws <> [] -> Forall word ws ->
  exists c t, join [SP] ws = c :: t /\ isspace c = false.
Proof.
  destruct ws as [|w ws']; [contradiction|]. intros _ H.
  inversion H; subst. destruct ws' as [|w2 ws''].
  - simpl. rewrite <- (app_nil_r w). now apply word_head.
  - now apply word_head.
Qed.

Lemma join_last ws :
  ws <> [] -> Forall word ws ->
  exists t c, join [SP] ws = t ++ [c] /\ isspace c = false.
Proof.
  induction ws as [|w ws' IH]; [contradiction|]. intros _ H.
  inversion H as [|? ? [Hne Hw] Hws]; subst. destruct ws' as [|w2 ws''].
  - simpl. destruct (exists_last Hne) as [t [c ->]].
    exists t, c. split; [reflexivity|].
    apply Forall_app in Hw. destruct Hw as [_ Hc]. now inversion Hc.
  - destruct IH as [t [c [E Hc]]]; [discriminate | assumption |].
    change (join [SP] (w :: w2 :: ws''))
      with (w ++ [SP] ++ join [SP] (w2 :: ws'')).
    rewrite E. exists (w ++ [SP] ++ t), c.
    split; [now rewrite <- !app_assoc | assumption].
Qed.

Lemma doubled_space_spaceless w r :
  spaceless w -> doubled_space (w ++ r) = doubled_space r.
Proof.
  induction 1 as [|a w' Ha Hw IH]; [reflexivity|].
  change ((a :: w') ++ r) with (a :: (w' ++ r)).
  cbn [doubled_space]. rewrite Ha, IH. simpl.
  destruct (w' ++ r) eqn:E; [|reflexivity].
  apply app_eq_nil in E. destruct E as [_ ->]. reflexivity.
Qed.

Lemma join_no_doubled_space ws :
  Forall word ws -> doubled_space (join [SP] ws) = false.
Proof.
  induction ws as [|w ws' IH]; intros H; [reflexivity|].
  inversion H as [|? ? [Hne Hw] Hws]; subst. destruct ws' as [|w2 ws''].
  - simpl. rewrite <- (app_nil_r w). now rewrite doubled_space_spaceless.
  - change (join [SP] (w :: w2 :: ws''))
      with (w ++ SP :: join [SP] (w2 :: ws'')).
    rewrite doubled_space_spaceless by assumption.
    destruct (@join_head (w2 :: ws'')) as [c [t [E Hc]]];
      [discriminate | assumption |].
    rewrite E.
    change (doubled_space (SP :: c :: t))
      with ((isspace SP && isspace c) || doubled_space (c :: t)).
    rewrite Hc, andb_false_r, orb_false_l, <- E. now apply IH.
Qed.

Lemma join_trimmed ws : Forall word ws -> strip (join [SP] ws) = join [SP] ws.
Proof.
  intros H. destruct ws as [|w ws']; [reflexivity|].
  destruct (@join_head (w :: ws')) as [c [t [E Hc]]];
    [discriminate | assumption |].
  destruct (@join_last (w :: ws')) as [t' [c' [E' Hc']]];
    [discriminate | assumption |].
  unfold strip. rewrite E. cbn [lstrip]. rewrite Hc, <- E.
  unfold rstrip. rewrite E', rev_app_distr. cbn [rev app lstrip].
  rewrite Hc'. change (c' :: rev t') with ([c'] ++ rev t').
  now rewrite rev_app_distr, rev_involutive.
Qed.

Lemma join_spaces_plain ws :
  Forall word ws ->
  Forall (fun c => isspace c = true -> c = SP) (join [SP] ws).
Proof.
  intros H. apply join_chars; [repeat constructor|].
  eapply Forall_impl; [|exact H]. intros w [_ Hw].
  eapply Forall_impl; [|exact Hw]. simpl. intros c Hc E. congruence.
Qed.

Lemma join_no_LF ws : Forall word ws -> ~ In LF (join [SP] ws).
Proof.
  intros H Hin. assert (F : Forall (fun c => c <> LF) (join [SP] ws)).
  { apply join_chars; [repeat constructor; discriminate|].
    eapply Forall_impl; [|exact H]. intros w [_ Hw].
    eapply Forall_impl; [|exact Hw]. simpl. intros c Hc ->.
    rewrite isspace_LF in Hc. discriminate. }
  rewrite Forall_forall in F. now apply (F LF).
Qed.

(** [clean_text] gives the words of the repaired text, one space
    between them. *)
Lemma clean_text_shape U s :
  exists ws, Clean.clean_text U s = join [SP] ws
             /\ Forall word ws /\ Forall (Forall (fun c => c <> SHY)) ws.
Proof.
  destruct s as [|c t].
  - exists []. repeat split; constructor.
  - unfold Clean.clean_text.
    set (r := remove_char SHY (remove_char SHY (Clean.hyphen_sub U (c :: t)))).
    exists (split (Clean.space_sub r)). split; [reflexivity|].
    split; [apply split_words|].
    apply split_from_chars; [constructor|].
    apply (@Forall2_space_keeps _ r); [apply space_sub_from_pointwise | discriminate |].
    apply Forall_forall. intros x Hx ->. now apply remove_char_absent in Hx.
Qed.

Lemma clean_text_fixed U ws :
  Forall word ws -> Forall (Forall (fun c => c <> SHY)) ws ->
  Clean.clean_text U (join [SP] ws) = join [SP] ws.
Proof.
  intros Hw Hshy. destruct (join [SP] ws) as [|c t] eqn:E; [reflexivity|].
  unfold Clean.clean_text. rewrite <- E.
  rewrite hyphen_sub_no_LF by now apply join_no_LF.
  assert (Hno : ~ In SHY (join [SP] ws)).
  { intros Hin.
    assert (F : Forall (fun c => c <> SHY) (join [SP] ws))
      by (apply join_chars; [repeat constructor; discriminate | assumption]).
    rewrite Forall_forall in F. now apply (F SHY). }
  rewrite (remove_char_id _ _ Hno), (remove_char_id _ _ Hno).
  unfold Clean.space_sub. rewrite space_sub_from_id by now apply join_spaces_plain.
  now rewrite split_join.
Qed.

(** ** The text normaliser *)

Lemma clean_text_single_spaced U s :
  single_spaced_trimmed (Clean.clean_text U s).
Proof.
  destruct (clean_text_shape U s) as [ws [-> [Hw _]]].
  split; [now apply join_trimmed|].
  split; [now apply join_no_doubled_space|].
  intros c Hin. pose proof (join_spaces_plain Hw) as F.
  rewrite Forall_forall in F. now apply F.
Qed.

Lemma clean_text_no_SHY U s : ~ In SHY (Clean.clean_text U s).
Proof.
  destruct (clean_text_shape U s) as [ws [-> [_ Hshy]]]. intros Hin.
  assert (F : Forall (fun c => c <> SHY) (join [SP] ws))
    by (apply join_chars; [repeat constructor; discriminate | assumption]).
  rewrite Forall_forall in F. now apply (F SHY).
Qed.

Lemma islower_not_SHY c : islower_az c = true -> c <> SHY.
Proof. intros H ->. discriminate. Qed.

(** C8: [clean_text] maps "exam-\nple" to "example", leaves no soft
    hyphen in its result, and gives a single-spaced, trimmed text:
    [strip] finds nothing to cut, no two whitespace characters are
    adjacent and the only whitespace left is the plain space. *)
Theorem clean_text_normalises (U : UCD) :
  Clean.clean_text U (lit "exam-" ++ [LF] ++ lit "ple") = lit "example"
  /\ (forall s, ~ In SHY (Clean.clean_text U s))
  /\ (forall s, single_spaced_trimmed (Clean.clean_text U s)).
Proof.
  split; [reflexivity|]. split.
  - apply clean_text_no_SHY.
  - apply clean_text_single_spaced.
Qed.

(** C10: [clean_text] is idempotent, and its result holds no line feed
    and has nothing for [strip] to cut at either end. *)
Theorem clean_text_idempotent (U : UCD) (s : str) :
  Clean.clean_text U (Clean.clean_text U s) = Clean.clean_text U s
  /\ ~ In LF (Clean.clean_text U s)
  /\ strip (Clean.clean_text U s) = Clean.clean_text U s.
Proof.
  destruct (clean_text_shape U s) as [ws [-> [Hw Hshy]]].
  split; [now apply clean_text_fixed|].
  split; [now apply join_no_LF | now apply join_trimmed].
Qed.

(** C6, as the specification states it, fails: in "a bcd" the space
    stands after a lowercase letter and before three more, the pattern
    matches it, and the text comes back with the space in place. *)
Lemma lowercase_space_survives :
  Clean.prev_lower (Some 97%N) && isspace SP && Clean.two_lower (lit "bcd")
    = true
  /\ Clean.clean_text latin1 (lit "a bcd") = lit "a bcd"
  /\ Clean.clean_text latin1 (lit "a bcd") <> lit "abcd".
Proof. repeat split; try reflexivity. discriminate. Qed.

(** C6, amended: the space pattern rewrites the whitespace character it
    matches to one plain space and removes nothing.  Character by
    character its result is the input or a plain space in place of a
    whitespace character, so [split] finds the same words, and a space
    between a lowercase letter and two more keeps the two fragments
    apart in the result of [clean_text]. *)
Theorem lowercase_space_kept (U : UCD) (a b c : N) (s : str) :
  islower_az a = true -> islower_az b = true -> islower_az c = true ->
  Clean.clean_text U [a; SP; b; c] = [a; SP; b; c]
  /\ Forall2 space_to_SP s (Clean.space_sub s)
  /\ length (Clean.space_sub s) = length s
  /\ split (Clean.space_sub s) = split s.
Proof.
  intros Ha Hb Hc. split; [|split; [|split]].
  - apply (@clean_text_fixed U [[a]; [b; c]]).
    + repeat constructor; try discriminate; now apply islower_not_space.
    + repeat constructor; now apply islower_not_SHY.
  - apply space_sub_from_pointwise.
  - apply space_sub_from_length.
  - apply split_from_pointwise, space_sub_from_pointwise.
Qed.

Lemma lowercase_space_kept_witness :
  Clean.clean_text latin1 [97; SP; 98; 99]%N = [97; SP; 98; 99]%N
  /\ Forall2 space_to_SP (lit "ab cde") (Clean.space_sub (lit "ab cde"))
  /\ length (Clean.space_sub (lit "ab cde")) = length (lit "ab cde")
  /\ split (Clean.space_sub (lit "ab cde")) = split (lit "ab cde").
Proof.
  apply (@lowercase_space_kept latin1 97%N 98%N 99%N (lit "ab cde"));
    reflexivity.
Defined.

(** ** The upload-size middleware *)

(** C9: on POST /convert the size guard compares the declared length
    only.  Without a content-length header the request is handed on,
    whatever its body; with a header whose value [int] reads as a number
    above MAX_FILE_SIZE it is answered with 413, whatever its body, and
    never handed on. *)
Theorem size_guard_trusts_header
  (int : str -> option Z) (cfg : Config) (v : str) (n : Z) :
  int [] = None -> int v = Some n -> (n > MAX_FILE_SIZE cfg)%Z ->
  (forall body0,
      limit_upload_size int cfg
        {| method := lit "POST"; path := lit "/convert";
           content_length := None; body := body0 |} = CallNext)
  /\ (forall body0,
      limit_upload_size int cfg
        {| method := lit "POST"; path := lit "/convert";
           content_length := Some v; body := body0 |}
      = JSONResponse 413
          (lit "File too large. Maximum allowed size is "
             ++ str_of_Z (MAX_FILE_SIZE cfg / (1024 * 1024)) ++ lit "MB.")).
Proof.
  intros Hempty Hv Hn. split; intros body0; [reflexivity|].
  unfold limit_upload_size; cbn [method path content_length].
  change (str_eqb (lit "POST") (lit "POST")
          && str_eqb (lit "/convert") (lit "/convert")) with true.
  cbv iota. destruct v as [|c v']; [congruence|].
  rewrite Hv. apply Z.gtb_gt in Hn. now rewrite Hn.
Qed.

Lemma size_guard_trusts_header_witness :
  (forall body0,
      limit_upload_size int_of_digits default_config
        {| method := lit "POST"; path := lit "/convert";
           content_length := None; body := body0 |} = CallNext)
  /\ (forall body0,
      limit_upload_size int_of_digits default_config
        {| method := lit "POST"; path := lit "/convert";
           content_length := Some (lit "52428801"); body := body0 |}
      = JSONResponse 413
          (lit "File too large. Maximum allowed size is "
             ++ str_of_Z (MAX_FILE_SIZE default_config / (1024 * 1024))
             ++ lit "MB.")).
Proof.
  apply (@size_guard_trusts_header int_of_digits default_config
           (lit "52428801") 52428801%Z); reflexivity.
Defined.

(** ** The conversion handler *)

Section HandlerFacts.

Variable U : UCD.
Variable intersects : Rect -> Rect -> bool.

Lemma tasks_from_nth (pages : list Page) : forall k j,
  nth_error (combine pages (seq k (length pages))) j
  = option_map (fun p => (p, k + j)) (nth_error pages j).
Proof.
  induction pages as [|p ps IH]; intros k j; simpl.
  - now destruct j.
  - destruct j as [|j]; simpl.
    + now rewrite Nat.add_0_r.
    + rewrite IH. now rewrite Nat.add_succ_r.
Qed.

(** Every section is made from its own page and index alone. *)
Lemma gather_nth (pages : list Page) (j : nat) :
  nth_error (gather U intersects (tasks_of pages)) j
  = option_map (fun p => Renderer.process_single_page U intersects p j)
               (nth_error pages j).
Proof.
  unfold gather, tasks_of. rewrite nth_error_map, tasks_from_nth.
  now destruct (nth_error pages j).
Qed.

Lemma gather_length (pages : list Page) :
  length (gather U intersects (tasks_of pages)) = length pages.
Proof.
  unfold gather, tasks_of.
  rewrite length_map, length_combine, length_seq. apply Nat.min_id.
Qed.

Lemma submits_of_tasks (tasks : list (Page * nat)) :
  filter is_submit (map (fun t => Submit (snd t)) tasks)
  = map (fun t => Submit (snd t)) tasks.
Proof. induction tasks; simpl; congruence. Qed.

End HandlerFacts.

(** C4: an upload accepted by the file-name check whose document has
    more than MAX_PAGES pages is answered with 413; the detail names the
    page count and the limit, the document is opened and closed again,
    and nothing is split off or submitted to the pool. *)
Theorem too_many_pages_rejected
  (U : UCD) (intersects : Rect -> Rect -> bool) (cfg : Config)
  (file : UploadFile) (pages : list Page) (execution_time : Q) :
  endswith (filename file) (lit ".pdf") = true ->
  document file = Pages pages ->
  (Z.of_nat (length pages) > MAX_PAGES cfg)%Z ->
  convert_pdf U intersects cfg file execution_time
  = ([OpenDocument; CloseDocument],
     HTTPException 413
       (lit "PDF too long (" ++ str_of_nat (length pages)
          ++ lit " pages). Max is " ++ str_of_Z (MAX_PAGES cfg) ++ lit "."))
  /\ filter is_submit (fst (convert_pdf U intersects cfg file execution_time))
     = [].
Proof.
  intros Hname Hdoc Hmany. unfold convert_pdf.
  rewrite Hname, Hdoc. cbn [negb]. apply Z.gtb_gt in Hmany.
  rewrite Hmany. split; reflexivity.
Qed.

Lemma too_many_pages_rejected_witness :
  let file := {| filename := lit "report.pdf";
                 document := Pages (repeat (Opened [] [] []) 301) |} in
  convert_pdf latin1 (fun _ _ => false) default_config file 0
  = ([OpenDocument; CloseDocument],
     HTTPException 413 (lit "PDF too long (301 pages). Max is 300."))
  /\ filter is_submit
       (fst (convert_pdf latin1 (fun _ _ => false) default_config file 0))
     = [].
Proof.
  intros file.
  apply (@too_many_pages_rejected latin1 (fun _ _ => false) default_config
           file (repeat (Opened [] [] []) 301) 0); reflexivity.
Defined.

Lemma startswith_app p r : startswith p (p ++ r) = true.
Proof. induction p; simpl; [reflexivity|]. now rewrite N.eqb_refl. Qed.

Lemma join_cons sep p rest :
  exists tail, join sep (p :: rest) = p ++ tail.
Proof.
  destruct rest as [|q rest'].
  - exists []. simpl. now rewrite app_nil_r.
  - now exists (sep ++ join sep (q :: rest')).
Qed.

(** Whatever happens on the page, the section opens with its heading. *)
Lemma section_starts_with_heading U intersects page page_num :
  startswith (Renderer.heading page_num)
             (Renderer.process_single_page U intersects page page_num) = true.
Proof.
  unfold Renderer.process_single_page.
  destruct (Renderer.render_page U intersects page page_num) as [sec|e] eqn:E.
  - unfold Renderer.render_page in E. destruct page; [discriminate|].
    destruct (Renderer.tables_loop U ([], []) _) as [[mds bbs]|]; [|discriminate].
    cbn [bind] in E. inversion E as [E'].
    match goal with
    | |- context [join _ ?l] =>
        assert (H : exists rest, l = Renderer.heading page_num :: rest)
    end.
    { destruct mds; destruct (Renderer.blocks_loop _ _ _ _ _);
        eexists; reflexivity. }
    destruct H as [rest ->].
    destruct (join_cons [LF; LF] (Renderer.heading page_num) rest) as [tl ->].
    apply startswith_app.
  - apply startswith_app.
Qed.

(** C3: [process_single_page] always returns a section that opens with
    the 1-based heading; when the page raises, the section is the heading
    followed by the error text with the exception's description.  The
    request still succeeds, counts every page, and each section is made
    from its own page alone, so the siblings of a failed page are
    untouched. *)
Theorem page_failure_is_contained
  (U : UCD) (intersects : Rect -> Rect -> bool) (cfg : Config)
  (file : UploadFile) (pages : list Page) (execution_time : Q)
  (i : nat) (page : Page) (msg : str) :
  endswith (filename file) (lit ".pdf") = true ->
  document file = Pages pages ->
  (Z.of_nat (length pages) <= MAX_PAGES cfg)%Z ->
  nth_error pages i = Some page ->
  Renderer.render_page U intersects page i = Raise msg ->
  let sections := gather U intersects (tasks_of pages) in
  Renderer.process_single_page U intersects page i = error_section i msg
  /\ startswith (lit "## Page " ++ str_of_nat (i + 1))
                (Renderer.process_single_page U intersects page i) = true
  /\ snd (convert_pdf U intersects cfg file execution_time)
     = Success {| pages_processed := length pages;
                  processing_time_sec := execution_time;
                  content := join separator sections |}
  /\ nth_error sections i = Some (error_section i msg)
  /\ (forall j p, nth_error pages j = Some p ->
        nth_error sections j
        = Some (Renderer.process_single_page U intersects p j)).
Proof.
  intros Hname Hdoc Hfew Hpage Hraise sections.
  assert (Herr : Renderer.process_single_page U intersects page i
                 = error_section i msg).
  { unfold Renderer.process_single_page. now rewrite Hraise. }
  split; [exact Herr|]. split; [apply section_starts_with_heading|].
  split; [|split].
  - unfold convert_pdf. rewrite Hname, Hdoc. cbn [negb].
    assert (Hgt : (Z.of_nat (length pages) >? MAX_PAGES cfg)%Z = false)
      by (rewrite Z.gtb_ltb; apply Z.ltb_ge; lia).
    rewrite Hgt. cbn [snd]. now rewrite gather_length.
  - unfold sections. now rewrite gather_nth, Hpage, <- Herr.
  - intros j p Hj. unfold sections. now rewrite gather_nth, Hj.
Qed.

Lemma page_failure_is_contained_witness :
  let sections :=
    gather latin1 Sample.no_overlap
      (tasks_of [Sample.prose (lit "first page"); Sample.broken_page;
                 Sample.prose (lit "third page")]) in
  Renderer.process_single_page latin1 Sample.no_overlap Sample.broken_page 1
  = error_section 1 (lit "list index out of range")
  /\ startswith (lit "## Page " ++ str_of_nat (1 + 1))
       (Renderer.process_single_page latin1 Sample.no_overlap
          Sample.broken_page 1) = true
  /\ snd (convert_pdf latin1 Sample.no_overlap default_config
            Sample.three_pages 0)
     = Success {| pages_processed := 3;
                  processing_time_sec := 0;
                  content := join separator sections |}
  /\ nth_error sections 1
     = Some (error_section 1 (lit "list index out of range"))
  /\ (forall j p,
        nth_error [Sample.prose (lit "first page"); Sample.broken_page;
                   Sample.prose (lit "third page")] j = Some p ->
        nth_error sections j
        = Some (Renderer.process_single_page latin1 Sample.no_overlap p j)).
Proof.
  refine (@page_failure_is_contained latin1 Sample.no_overlap default_config
            Sample.three_pages _ 0 1 Sample.broken_page
            (lit "list index out of range") _ _ _ _ _);
    try reflexivity.
  vm_compute. discriminate.
Defined.

(** ** Counting separators *)

Lemma separator_chars : separator = [LF; HYPHEN; HYPHEN; HYPHEN; LF].
Proof. reflexivity. Qed.

Lemma startswith_longer p s r :
  startswith p s = true -> startswith p (s ++ r) = true.
Proof.
  revert s. induction p as [|a p IH]; intros s H; [reflexivity|].
  destruct s as [|b s]; [discriminate|]. simpl in *.
  apply andb_prop in H. destruct H as [-> H]. now apply IH.
Qed.

Lemma contains_longer p s r :
  contains p (s ++ r) = false -> contains p s = false.
Proof.
  induction s as [|c t IH]; simpl; intros H.
  - destruct (startswith p []) eqn:E; [|reflexivity].
    apply (startswith_longer _ _ r) in E. simpl in E.
    destruct r; simpl in H; rewrite E in H; discriminate.
  - apply orb_false_elim in H. destruct H as [H1 H2].
    rewrite (IH H2), orb_false_r.
    destruct (startswith p (c :: t)) eqn:E; [|reflexivity].
    apply (startswith_longer _ _ r) in E. simpl in E. congruence.
Qed.

Lemma count_without p s : p <> [] -> contains p s = false -> count s p = 0.
Proof.
  intros Hp. unfold count. induction s as [|c t IH]; intros H; [reflexivity|].
  simpl in H. apply orb_false_elim in H. destruct H as [H1 H2].
  cbn [count_from]. rewrite H1. now apply IH.
Qed.

(** A separator that starts inside a section and runs into the
    separator after it would show in the section followed by a line
    feed. *)
Lemma no_straddling u rest :
  u <> [] ->
  startswith separator (u ++ [LF]) = false ->
  startswith separator (u ++ separator ++ rest) = false.
Proof.
  intros Hu. rewrite separator_chars.
  destruct u as [|a [|b [|c [|d [|e u']]]]]; [contradiction|..];
    cbn [startswith app]; intros H;
    change ((HYPHEN =? LF)%N) with false in *;
    rewrite ?andb_false_r in *; try reflexivity; exact H.
Qed.

Lemma count_section section rest :
  separator_free section ->
  count (section ++ separator ++ rest) separator = S (count rest separator).
Proof.
  unfold separator_free, count. induction section as [|c t IH]; intros H.
  - reflexivity.
  - simpl in H. apply orb_false_elim in H. destruct H as [H1 H2].
    change ((c :: t) ++ separator ++ rest)
      with (c :: (t ++ separator ++ rest)).
    cbn [count_from].
    change (c :: t ++ separator ++ rest)
      with ((c :: t) ++ separator ++ rest).
    rewrite no_straddling; [now apply IH | discriminate | exact H1].
Qed.

Lemma count_joined sections :
  Forall separator_free sections ->
  count (join separator sections) separator = length sections - 1.
Proof.
  induction sections as [|sec rest IH]; intros H; [reflexivity|].
  inversion H as [|? ? Hsec Hrest]; subst. destruct rest as [|sec2 rest'].
  - simpl. apply count_without; [discriminate|].
    now apply contains_longer with (r := [LF]).
  - change (join separator (sec :: sec2 :: rest'))
      with (sec ++ separator ++ join separator (sec2 :: rest')).
    rewrite count_section by assumption. rewrite IH by assumption.
    simpl. lia.
Qed.

(** C1, as the specification states it, fails.  A page whose first
    paragraph is "---" followed by soft hyphens shows a line "---" in its
    section once [clean_text] has removed the soft hyphens: one page, one
    separator found.  A document without pages gives an empty content:
    no page, and no separator rather than minus one. *)
Lemma separator_count_depends_on_content :
  (exists r,
      snd (convert_pdf latin1 Sample.no_overlap default_config
             Sample.dashes_upload 0) = Success r
      /\ pages_processed r = 1
      /\ content r = lit "## Page 1" ++ [LF; LF] ++ lit "### Text Content"
                       ++ [LF] ++ lit "---" ++ [LF; LF] ++ lit "abcdef"
      /\ count (content r) separator = 1
      /\ ~ separators_match r)
  /\ (exists r,
      snd (convert_pdf latin1 Sample.no_overlap default_config
             Sample.empty_upload 0) = Success r
      /\ pages_processed r = 0
      /\ count (content r) separator = 0
      /\ ~ separators_match r).
Proof.
  split; eexists; (split; [reflexivity|]); repeat split;
    vm_compute; discriminate.
Qed.

(** C1, amended: a successful response holds the sections of the pages
    joined by the separator; when there is at least one page and no
    section has a line after its first that is exactly "---", the content
    holds exactly [pages_processed - 1] separators, counted as
    [str.count] counts them; for a document without pages the content is
    empty and holds none. *)
Theorem separators_counted
  (U : UCD) (intersects : Rect -> Rect -> bool) (cfg : Config)
  (file : UploadFile) (pages : list Page) (execution_time : Q)
  (trace : list event) (r : Response) :
  document file = Pages pages ->
  convert_pdf U intersects cfg file execution_time = (trace, Success r) ->
  Forall separator_free (gather U intersects (tasks_of pages)) ->
  pages_processed r = length pages
  /\ content r = join separator (gather U intersects (tasks_of pages))
  /\ (pages_processed r = 0 ->
        content r = [] /\ count (content r) separator = 0)
  /\ (1 <= pages_processed r -> separators_match r).
Proof.
  intros Hdoc Hrun Hfree. unfold convert_pdf in Hrun. rewrite Hdoc in Hrun.
  destruct (negb (endswith (filename file) (lit ".pdf"))); [discriminate|].
  destruct (Z.of_nat (length pages) >? MAX_PAGES cfg)%Z; [discriminate|].
  inversion Hrun; subst; clear Hrun. cbn [pages_processed content].
  rewrite gather_length. split; [reflexivity|]. split; [reflexivity|].
  split.
  - intros H0. destruct pages; [split; reflexivity | discriminate].
  - intros H1. unfold separators_match. cbn [pages_processed content].
    rewrite count_joined by assumption. rewrite !gather_length. lia.
Qed.

Lemma separators_counted_witness :
  exists trace r,
    convert_pdf latin1 Sample.no_overlap default_config Sample.three_pages 0
    = (trace, Success r)
    /\ pages_processed r = 3
    /\ (1 <= pages_processed r -> separators_match r).
Proof.
  eexists; eexists. split; [reflexivity|].
  assert (F : Forall separator_free
                (gather latin1 Sample.no_overlap
                   (tasks_of [Sample.prose (lit "first page");
                              Sample.broken_page;
                              Sample.prose (lit "third page")])))
    by (repeat constructor).
  destruct (@separators_counted latin1 Sample.no_overlap default_config
              Sample.three_pages _ 0 _ _ eq_refl eq_refl F)
    as [H1 [_ [_ H4]]].
  split; [exact H1 | exact H4].
Defined.

(** ** Text blocks *)

Section BlockFacts.

Variable U : UCD.
Variable intersects : Rect -> Rect -> bool.

Lemma insert_block_In b0 sorted b :
  In b (Renderer.insert_block b0 sorted) <-> b = b0 \/ In b sorted.
Proof.
  induction sorted as [|c rest IH]; simpl.
  - intuition auto.
  - destruct (Renderer.key_le b0 c); simpl; [intuition auto|].
    rewrite IH. intuition auto.
Qed.

(** Sorting loses no block and invents none. *)
Lemma sort_blocks_In blocks b :
  In b (Renderer.sort_blocks blocks) <-> In b blocks.
Proof.
  induction blocks as [|b0 rest IH]; simpl; [reflexivity|].
  rewrite insert_block_In, IH. intuition auto.
Qed.

Lemma blocks_loop_filter bbs blocks : forall parts,
  Renderer.blocks_loop U intersects bbs blocks parts
  = parts ++ map (prose_of U) (filter (kept_block intersects bbs) blocks).
Proof.
  induction blocks as [|b rest IH]; intros parts; simpl.
  - now rewrite app_nil_r.
  - unfold kept_block at 1.
    destruct (existsb (intersects (rect b)) bbs); simpl; [apply IH|].
    destruct (strip (text b)) as [|c t] eqn:E; [apply IH|].
    destruct (5 <? length (c :: t)) eqn:L.
    + rewrite IH, <- app_assoc. cbn [map app].
      change (prose_of U b) with (Clean.clean_text U (strip (text b))).
      now rewrite E.
    + apply IH.
Qed.

End BlockFacts.

(** C5, as the specification states it, fails: the block "ab   cd" is 7
    characters long when stripped and 5 when cleaned; the renderer keeps
    it, the rule of the claim would skip it. *)
Lemma short_after_cleaning_is_kept :
  let b := Sample.block 50 (lit "ab   cd") in
  length (strip (text b)) = 7
  /\ length (Clean.clean_text latin1 (strip (text b))) = 5
  /\ Renderer.blocks_loop latin1 Sample.no_overlap [] [b] [] = [lit "ab cd"]
  /\ Renderer.blocks_loop latin1 Sample.no_overlap [] [b] []
     <> map (prose_of latin1)
            (filter (kept_if_cleaned_long latin1 Sample.no_overlap []) [b]).
Proof. repeat split; try reflexivity. vm_compute. discriminate. Qed.

(** ** Table validation *)

Section TableFacts.

Variable U : UCD.

Lemma render_table_nil : Renderer.render_table [] = Ok [].
Proof. reflexivity. Qed.

(** One turn of the table loop appends the table when it is accepted
    and changes nothing otherwise; it raises only if rendering does. *)
Lemma table_step_accepted mds bbs t md :
  Renderer.render_table (extract t) = Ok md ->
  Renderer.table_step U (mds, bbs) t
  = Ok (if accepted U t then (mds ++ [md], bbs ++ [bbox t]) else (mds, bbs)).
Proof.
  intros Hmd. unfold Renderer.table_step, accepted, markdown_of.
  destruct (extract t) as [|row rows] eqn:E.
  - rewrite render_table_nil in *. inversion Hmd; subst. reflexivity.
  - rewrite Hmd. cbn [bind]. destruct md as [|c md']; [reflexivity|].
    now destruct (Renderer.plausible U (c :: md')).
Qed.

Lemma table_step_raises acc t msg :
  Renderer.render_table (extract t) = Raise msg ->
  Renderer.table_step U acc t = Raise msg.
Proof.
  intros Hmd. unfold Renderer.table_step. destruct acc as [mds bbs].
  destruct (extract t) as [|row rows] eqn:E.
  - rewrite render_table_nil in Hmd. discriminate.
  - now rewrite Hmd.
Qed.

Lemma tables_loop_accepted tabs : forall mds0 bbs0 mds bbs,
  Renderer.tables_loop U (mds0, bbs0) tabs = Ok (mds, bbs) ->
  mds = mds0 ++ map markdown_of (filter (accepted U) tabs)
  /\ bbs = bbs0 ++ map bbox (filter (accepted U) tabs).
Proof.
  induction tabs as [|t rest IH]; intros mds0 bbs0 mds bbs H;
    cbn [Renderer.tables_loop] in H.
  - inversion H; subst. simpl. now rewrite !app_nil_r.
  - destruct (Renderer.render_table (extract t)) as [md|msg] eqn:Hmd.
    + rewrite (table_step_accepted mds0 bbs0 t Hmd) in H. cbn [bind] in H.
      simpl. destruct (accepted U t) eqn:A.
      * apply IH in H. destruct H as [-> ->]. simpl.
        unfold markdown_of at 2. rewrite Hmd.
        now rewrite <- !app_assoc.
      * now apply IH in H.
    + rewrite (table_step_raises (mds0, bbs0) t Hmd) in H. discriminate.
Qed.

End TableFacts.

(** C2: a detected table whose rendered Markdown [md] is not empty is
    appended to the tables of the page, with its bounding rectangle,
    exactly when the text left after removing every '|' and '-' holds
    more than 5 digits or is shorter than 200 characters; otherwise the
    loop goes on with both lists unchanged and raises nothing.  Over the
    whole page the rectangles that text blocks are tested against are
    those of the accepted tables, in order. *)
Theorem table_heuristic
  (U : UCD) (mds : list str) (bbs : list Rect) (t : Table) (md : str) :
  Renderer.render_table (extract t) = Ok md -> md <> [] ->
  let all_text := remove_char HYPHEN (remove_char PIPE md) in
  let digit_count := length (filter (isdigit U) all_text) in
  (5 < digit_count \/ length all_text < 200 ->
     Renderer.table_step U (mds, bbs) t = Ok (mds ++ [md], bbs ++ [bbox t]))
  /\ (~ (5 < digit_count \/ length all_text < 200) ->
     Renderer.table_step U (mds, bbs) t = Ok (mds, bbs))
  /\ (forall tabs table_markdowns table_bboxes,
        Renderer.tables_loop U ([], []) tabs
        = Ok (table_markdowns, table_bboxes) ->
        table_markdowns = map markdown_of (filter (accepted U) tabs)
        /\ table_bboxes = map bbox (filter (accepted U) tabs)).
Proof.
  intros Hmd Hne all_text digit_count.
  assert (Hacc : accepted U t = (5 <? digit_count) || (length all_text <? 200)).
  { unfold accepted, markdown_of. rewrite Hmd.
    destruct md; [contradiction | reflexivity]. }
  rewrite (table_step_accepted U mds bbs t Hmd), Hacc.
  split; [|split].
  - intros [H|H].
    + apply Nat.ltb_lt in H. now rewrite H.
    + apply Nat.ltb_lt in H. now rewrite H, orb_true_r.
  - intros H.
    destruct (5 <? digit_count) eqn:D;
      [exfalso; apply H; left; now apply Nat.ltb_lt|].
    destruct (length all_text <? 200) eqn:L;
      [exfalso; apply H; right; now apply Nat.ltb_lt|].
    reflexivity.
  - intros tabs tm tb H. now apply tables_loop_accepted in H.
Qed.

Lemma table_heuristic_witness :
  Renderer.table_step latin1 ([], []) (Sample.long_table (lit "123456"))
  = Ok ([markdown_of (Sample.long_table (lit "123456"))], [Sample.at_row 50])
  /\ Renderer.table_step latin1 ([], []) (Sample.long_table (lit "12"))
     = Ok ([], []).
Proof.
  split.
  - refine (proj1 (@table_heuristic latin1 [] [] (Sample.long_table (lit "123456"))
                     (markdown_of (Sample.long_table (lit "123456"))) _ _) _).
    + vm_compute; reflexivity.
    + vm_compute; discriminate.
    + left. vm_compute. repeat constructor.
  - refine (proj1 (proj2 (@table_heuristic latin1 [] [] (Sample.long_table (lit "12"))
                     (markdown_of (Sample.long_table (lit "12"))) _ _)) _).
    + vm_compute; reflexivity.
    + vm_compute; discriminate.
    + intros [H|H]; vm_compute in H; lia.
Defined.

(** The pair of tables of the specification: 300 characters are left of
    each, with 2 digits the table is dropped, with 6 it is kept. *)
Example long_tables :
  length (Renderer.residue (markdown_of (Sample.long_table (lit "12")))) = 300
  /\ length (Renderer.residue (markdown_of (Sample.long_table (lit "123456"))))
     = 300
  /\ accepted latin1 (Sample.long_table (lit "12")) = false
  /\ accepted latin1 (Sample.long_table (lit "123456")) = true.
Proof. repeat split; vm_compute; reflexivity. Qed.

(** ** Table rendering on a grid *)

Lemma skipn_nth_cons {A : Type} (l : list A) : forall i x,
  nth_error l i = Some x -> skipn i l = x :: skipn (S i) l.
Proof.
  induction l as [|a t IH]; intros [|i] x H; try discriminate.
  - inversion H; reflexivity.
  - simpl in H. now apply IH.
Qed.

Lemma any_filled_rect w data i :
  rectangular w data -> i < w ->
  Renderer.any_filled i data = Ok (column_filled i data).
Proof.
  intros Hrect Hi. induction Hrect as [|row rest Hrow Hrest IH]; [reflexivity|].
  simpl. unfold index.
  destruct (nth_error row i) as [c|] eqn:E.
  - cbn [bind]. destruct (Renderer.cell_filled c); [reflexivity|].
    now rewrite IH.
  - apply nth_error_None in E. lia.
Qed.

Lemma valid_cols_from_rect w data n : forall i,
  rectangular w data -> i + n <= w ->
  Renderer.valid_cols_from i n data
  = Ok (map (fun k => column_filled k data) (seq i n)).
Proof.
  induction n as [|n IH]; intros i Hrect Hi; [reflexivity|].
  simpl. rewrite (any_filled_rect Hrect) by lia. cbn [bind].
  rewrite IH by (assumption || lia). reflexivity.
Qed.

Lemma clean_row_from_pick valid : forall i row,
  length row = i + length valid ->
  Renderer.clean_row_from i valid row = Ok (pick valid (skipn i row)).
Proof.
  induction valid as [|v vs IH]; intros i row Hlen.
  - simpl. now destruct (skipn i row).
  - simpl in Hlen. destruct (nth_error row i) as [c|] eqn:E;
      [|apply nth_error_None in E; lia].
    rewrite (skipn_nth_cons _ _ E). simpl. unfold index. rewrite E.
    cbn [bind]. rewrite IH by lia. now destruct v.
Qed.

Lemma render_rows_emitted valid data : forall md header_done,
  rectangular (length valid) data ->
  Renderer.render_rows valid data md header_done
  = Ok (md ++ concat (map Renderer.md_line
                         (emitted (map (pick valid) data) header_done))).
Proof.
  induction data as [|row rest IH]; intros md hd Hrect.
  - simpl. now rewrite app_nil_r.
  - inversion Hrect as [|? ? Hrow Hrest]; subst.
    cbn [Renderer.render_rows map emitted].
    rewrite clean_row_from_pick by (simpl; lia). cbn [bind skipn].
    destruct (negb (Renderer.any_text (pick valid row))); [now apply IH|].
    destruct hd; cbn [negb].
    + rewrite IH by assumption. cbn [map concat]. now rewrite <- app_assoc.
    + rewrite IH by assumption. cbn [map concat]. now rewrite <- !app_assoc.
Qed.

Lemma valid_columns_rect w row rest :
  rectangular w (row :: rest) ->
  Renderer.valid_columns (row :: rest)
  = Ok (map (fun k => column_filled k (row :: rest)) (seq 0 w)).
Proof.
  intros Hrect. unfold Renderer.valid_columns.
  inversion Hrect as [|? ? Hrow Hrest]; subst.
  now apply valid_cols_from_rect with (w := length row).
Qed.

(** On a grid nothing raises, and the Markdown is the lines of
    [emitted] over the picked cells. *)
Lemma render_table_rect w row rest :
  rectangular w (row :: rest) ->
  Renderer.render_table (row :: rest)
  = Ok (concat (map Renderer.md_line
          (emitted (map (pick (map (fun k => column_filled k (row :: rest))
                                   (seq 0 w)))
                        (row :: rest)) false))).
Proof.
  intros Hrect. unfold Renderer.render_table.
  rewrite (valid_columns_rect Hrect). cbn [bind].
  rewrite render_rows_emitted; [reflexivity|].
  now rewrite length_map, length_seq.
Qed.

(** *** Deleting a column *)

Lemma nth_error_remove_nth {A : Type} (l : list A) : forall j k,
  nth_error (remove_nth j l) k = nth_error l (shift j k).
Proof.
  unfold shift. induction l as [|x t IH]; intros j k.
  - cbn [remove_nth]. destruct (k <? j); destruct k; reflexivity.
  - destruct j as [|j]; [reflexivity|].
    destruct k as [|k]; [reflexivity|]. simpl. rewrite IH.
    change (S k <? S j) with (k <? j). now destruct (k <? j).
Qed.

Lemma length_remove_nth {A : Type} (l : list A) : forall j,
  j < length l -> length (remove_nth j l) = length l - 1.
Proof.
  induction l as [|x t IH]; intros j H; [simpl in H; lia|].
  destruct j as [|j]; simpl; [lia|].
  simpl in H. rewrite IH by lia. lia.
Qed.

Lemma column_filled_drop j data k :
  column_filled k (drop_column j data) = column_filled (shift j k) data.
Proof.
  unfold column_filled, drop_column. induction data as [|row rest IH];
    [reflexivity|].
  simpl. now rewrite nth_error_remove_nth, IH.
Qed.

Lemma remove_nth_map_seq {A : Type} (f : nat -> A) w : forall s j,
  j < w ->
  remove_nth j (map f (seq s w))
  = map (fun k => f (if k <? s + j then k else S k)) (seq s (w - 1)).
Proof.
  induction w as [|w IH]; intros s j Hj; [lia|].
  destruct j as [|j].
  - simpl. rewrite Nat.sub_0_r, Nat.add_0_r, <- seq_shift, map_map.
    apply map_ext_in. intros k Hk. apply in_seq in Hk.
    destruct (k <? s) eqn:E; [apply Nat.ltb_lt in E; lia | reflexivity].
  - cbn [seq map remove_nth]. rewrite IH by lia.
    destruct w as [|w]; [lia|].
    replace (S (S w) - 1) with (S w) by lia.
    replace (S w - 1) with w by lia. cbn [seq map].
    f_equal.
    + destruct (s <? s + S j) eqn:E; [reflexivity|].
      apply Nat.ltb_ge in E. lia.
    + apply map_ext. intros k. now rewrite <- Nat.add_succ_comm.
Qed.

Lemma pick_remove_nth valid : forall j row,
  nth_error valid j = Some false -> length row = length valid ->
  pick (remove_nth j valid) (remove_nth j row) = pick valid row.
Proof.
  induction valid as [|v vs IH]; intros j row Hj Hlen;
    [destruct j; discriminate|].
  destruct row as [|c cs]; [discriminate|].
  destruct j as [|j].
  - simpl in Hj. inversion Hj; subst. reflexivity.
  - simpl in *. rewrite IH by (assumption || lia). reflexivity.
Qed.

Lemma pick_length valid : forall row,
  length row = length valid -> length (pick valid row) = kept_columns valid.
Proof.
  unfold kept_columns. induction valid as [|v vs IH]; intros row H.
  - reflexivity.
  - destruct row as [|c cs]; [discriminate|]. simpl in *.
    destruct v; simpl; rewrite IH by lia; reflexivity.
Qed.

Lemma kept_columns_le valid : kept_columns valid <= length valid.
Proof. apply filter_length_le. Qed.

Lemma kept_columns_lt valid : forall j,
  nth_error valid j = Some false -> kept_columns valid < length valid.
Proof.
  unfold kept_columns. induction valid as [|v vs IH]; intros j H;
    [destruct j; discriminate|].
  destruct j as [|j]; simpl in H.
  - inversion H; subst. simpl.
    pose proof (kept_columns_le vs). unfold kept_columns in *. lia.
  - apply IH in H. destruct v; simpl; lia.
Qed.

Lemma emitted_lengths n rows : forall header_done,
  Forall (fun r => length r = n) rows ->
  Forall (fun r => length r = n) (emitted rows header_done).
Proof.
  induction rows as [|r rest IH]; intros hd H; [constructor|].
  inversion H; subst. simpl.
  destruct (negb (Renderer.any_text r)); [now apply IH|].
  destruct hd; simpl.
  - constructor; [reflexivity | now apply IH].
  - constructor; [reflexivity|]. constructor; [apply repeat_length|].
    now apply IH.
Qed.

(** The first line written is a header with its dashes under it. *)
Lemma emitted_header rows :
  emitted rows false = []
  \/ exists header body,
       emitted rows false
       = header :: repeat (lit "---") (length header) :: body.
Proof.
  induction rows as [|r rest IH]; [now left|]. simpl.
  destruct (negb (Renderer.any_text r)); [exact IH|].
  right. now exists r, (emitted rest true).
Qed.

Lemma blank_column_unfilled j data :
  blank_column j data -> column_filled j data = false.
Proof.
  unfold column_filled. induction 1 as [|row rest [c [E Hc]] Hrest IH];
    [reflexivity|].
  simpl. now rewrite E, Hc, IH.
Qed.

Lemma drop_column_rect w j data :
  rectangular w data -> j < w -> rectangular (w - 1) (drop_column j data).
Proof.
  intros Hrect Hj. unfold drop_column. apply Forall_map.
  eapply Forall_impl; [|exact Hrect]. simpl. intros row Hrow.
  rewrite length_remove_nth; lia.
Qed.

(** C7: on a grid with a column [j] that is blank in every row, the
    column is not valid, and the Markdown is the header row, a row of
    dashes and the data rows, each with one cell per valid column, which
    are fewer than the columns of the grid; it is the very Markdown of
    the grid with column [j] taken out. *)
Theorem blank_column_omitted (data : list (list cell)) (w j : nat) :
  data <> [] -> rectangular w data -> blank_column j data ->
  exists valid lines,
    Renderer.valid_columns data = Ok valid
    /\ nth_error valid j = Some false
    /\ Renderer.render_table data
       = Ok (concat (map Renderer.md_line lines))
    /\ lines = emitted (map (pick valid) data) false
    /\ Forall (fun cells => length cells = kept_columns valid) lines
    /\ kept_columns valid < w
    /\ (lines = []
        \/ exists header body,
             lines = header :: repeat (lit "---") (kept_columns valid) :: body)
    /\ Renderer.render_table (drop_column j data) = Renderer.render_table data.
Proof.
  intros Hne Hrect Hblank. destruct data as [|row rest]; [contradiction|].
  assert (Hj : j < w).
  { inversion Hblank as [|? ? [c [E _]] _]; subst.
    inversion Hrect as [|? ? Hrow _]; subst.
    apply nth_error_Some. rewrite E. discriminate. }
  set (data := row :: rest) in *.
  set (valid := map (fun k => column_filled k data) (seq 0 w)).
  assert (Hw : length valid = w)
    by (unfold valid; now rewrite length_map, length_seq).
  assert (Hvj : nth_error valid j = Some false).
  { unfold valid. rewrite nth_error_map, nth_error_seq.
    apply Nat.ltb_lt in Hj. rewrite Hj. cbn [option_map Nat.add].
    now rewrite (blank_column_unfilled Hblank). }
  assert (Hlines : Forall (fun cells => length cells = kept_columns valid)
                     (emitted (map (pick valid) data) false)).
  { apply emitted_lengths. apply Forall_map.
    eapply Forall_impl; [|exact Hrect]. simpl. intros r Hr.
    apply pick_length. lia. }
  exists valid, (emitted (map (pick valid) data) false).
  split; [exact (valid_columns_rect Hrect)|].
  split; [exact Hvj|].
  split; [exact (render_table_rect Hrect)|].
  split; [reflexivity|].
  split; [exact Hlines|].
  split; [rewrite <- Hw; exact (kept_columns_lt _ _ Hvj)|].
  split.
  - destruct (emitted_header (map (pick valid) data)) as [E | [h [b E]]];
      [now left | right].
    exists h, b. rewrite E in Hlines |- *.
    inversion Hlines as [|? ? Hh _]. now rewrite Hh.
  - clear Hlines Hw. subst valid data.
    rewrite (render_table_rect Hrect).
    pose proof (drop_column_rect Hrect Hj) as Hrect'.
    change (drop_column j (row :: rest))
      with (remove_nth j row :: map (remove_nth j) rest) in Hrect' |- *.
    rewrite (render_table_rect Hrect'). do 3 f_equal.
    change (remove_nth j row :: map (remove_nth j) rest)
      with (drop_column j (row :: rest)).
    set (valid := map (fun k => column_filled k (row :: rest)) (seq 0 w)) in *.
    assert (Hvalid' : map (fun k => column_filled k (drop_column j (row :: rest)))
                          (seq 0 (w - 1)) = remove_nth j valid).
    { unfold valid. rewrite remove_nth_map_seq by assumption.
      apply map_ext. intros k. apply column_filled_drop. }
    rewrite Hvalid'. unfold drop_column. rewrite map_map. f_equal.
    apply map_ext_in. intros r Hr. apply pick_remove_nth; [exact Hvj|].
    unfold rectangular in Hrect. rewrite Forall_forall in Hrect.
    rewrite (Hrect r Hr). unfold valid.
    now rewrite length_map, length_seq.
Qed.

Lemma blank_column_omitted_witness :
  exists valid lines,
    Renderer.valid_columns Sample.grid = Ok valid
    /\ nth_error valid 1 = Some false
    /\ Renderer.render_table Sample.grid
       = Ok (concat (map Renderer.md_line lines))
    /\ lines = emitted (map (pick valid) Sample.grid) false
    /\ Forall (fun cells => length cells = kept_columns valid) lines
    /\ kept_columns valid < 3
    /\ (lines = []
        \/ exists header body,
             lines = header :: repeat (lit "---") (kept_columns valid) :: body)
    /\ Renderer.render_table (drop_column 1 Sample.grid)
       = Renderer.render_table Sample.grid.
Proof.
  apply (@blank_column_omitted Sample.grid 3 1).
  - discriminate.
  - repeat constructor.
  - repeat constructor; eexists; split; reflexivity.
Defined.

(** ** The page section *)

(** What [render_page] returns on a page that raises nothing. *)
Lemma render_page_opened U intersects lines_tables text_tables blocks n section :
  Renderer.render_page U intersects (Opened lines_tables text_tables blocks) n
  = Ok section ->
  let tabs := filter (accepted U) (tabs_of lines_tables text_tables) in
  section
  = join [LF; LF]
      (Renderer.heading n
         :: tables_part (map markdown_of tabs)
         ++ text_part (Renderer.blocks_loop U intersects (map bbox tabs)
                         (Renderer.sort_blocks blocks) [])).
Proof.
  intros H tabs. unfold Renderer.render_page in H.
  fold (tabs_of lines_tables text_tables) in H.
  destruct (Renderer.tables_loop U ([], []) (tabs_of lines_tables text_tables))
    as [[mds bbs]|] eqn:E; [|discriminate].
  apply tables_loop_accepted in E. destruct E as [Emds Ebbs].
  cbn [app] in Emds, Ebbs. fold tabs in Emds, Ebbs. subst mds bbs.
  cbn [bind] in H. inversion H as [H']. clear H H'.
  unfold tables_part, text_part.
  destruct (map markdown_of tabs);
    destruct (Renderer.blocks_loop U intersects (map bbox tabs)
                (Renderer.sort_blocks blocks) []); reflexivity.
Qed.

(** C5, amended: on a page that raises nothing, every block of the page
    is looked at once; it is skipped when its rectangle intersects the
    rectangle of an accepted table, and skipped when its stripped text,
    before any cleaning, has 5 characters or fewer; otherwise the
    stripped text is cleaned and kept, in the order of the sorted blocks,
    and the kept texts are the text content of the section. *)
Theorem text_blocks_filtered
  (U : UCD) (intersects : Rect -> Rect -> bool)
  (lines_tables text_tables : list Table) (blocks : list Block)
  (page_num : nat) (section : str) :
  Renderer.render_page U intersects
    (Opened lines_tables text_tables blocks) page_num = Ok section ->
  let tabs := filter (accepted U) (tabs_of lines_tables text_tables) in
  let table_bboxes := map bbox tabs in
  let parts := map (fun b => Clean.clean_text U (strip (text b)))
                   (filter (kept_block intersects table_bboxes)
                           (Renderer.sort_blocks blocks)) in
  section = join [LF; LF]
              (Renderer.heading page_num
                 :: tables_part (map markdown_of tabs) ++ text_part parts)
  /\ (forall b, In b (Renderer.sort_blocks blocks) <-> In b blocks)
  /\ (forall b, kept_block intersects table_bboxes b = false <->
        existsb (intersects (rect b)) table_bboxes = true
        \/ length (strip (text b)) <= 5)
  /\ (forall b, In b blocks -> kept_block intersects table_bboxes b = true ->
        In (Clean.clean_text U (strip (text b))) parts).
Proof.
  intros Hpage tabs table_bboxes parts.
  apply render_page_opened in Hpage. cbv zeta in Hpage.
  rewrite blocks_loop_filter in Hpage. cbn [app] in Hpage.
  split; [exact Hpage|]. split; [apply sort_blocks_In|]. split.
  - intros b. unfold kept_block.
    destruct (existsb (intersects (rect b)) table_bboxes); simpl.
    + split; auto.
    + rewrite Nat.ltb_ge. split; [auto | intros [H|H]; [discriminate | exact H]].
  - intros b Hin Hkept. apply (in_map (prose_of U)).
    apply filter_In. split; [now apply sort_blocks_In | exact Hkept].
Qed.

Lemma text_blocks_filtered_witness :
  let section :=
    Renderer.process_single_page latin1 Sample.same_row Sample.mixed_page 0 in
  let tabs := filter (accepted latin1) (tabs_of Sample.mixed_tables []) in
  let table_bboxes := map bbox tabs in
  let parts := map (fun b => Clean.clean_text latin1 (strip (text b)))
                   (filter (kept_block Sample.same_row table_bboxes)
                           (Renderer.sort_blocks Sample.mixed_blocks)) in
  section = join [LF; LF]
              (Renderer.heading 0
                 :: tables_part (map markdown_of tabs) ++ text_part parts)
  /\ (forall b, In b (Renderer.sort_blocks Sample.mixed_blocks)
                <-> In b Sample.mixed_blocks)
  /\ (forall b, kept_block Sample.same_row table_bboxes b = false <->
        existsb (Sample.same_row (rect b)) table_bboxes = true
        \/ length (strip (text b)) <= 5)
  /\ (forall b, In b Sample.mixed_blocks ->
        kept_block Sample.same_row table_bboxes b = true ->
        In (Clean.clean_text latin1 (strip (text b))) parts).
Proof.
  exact (@text_blocks_filtered latin1 Sample.same_row Sample.mixed_tables []
           Sample.mixed_blocks 0 _ eq_refl).
Defined.

(** The sample page: the paragraph on the table and the short one are
    gone, the third one is kept although cleaning leaves 5 characters. *)
Example mixed_page_section :
  Renderer.process_single_page latin1 Sample.same_row Sample.mixed_page 0
  = lit "## Page 1" ++ [LF; LF] ++ lit "### Tables" ++ [LF]
      ++ lit "| n | 7 |" ++ [LF] ++ lit "| --- | --- |" ++ [LF]
      ++ [LF; LF] ++ lit "### Text Content" ++ [LF] ++ lit "ab cd".
Proof. reflexivity. Qed.

(** * Further properties *)

(** ** The text normaliser never lengthens a text *)

Section CleanLengths.

Variable U : UCD.

Lemma last_word_total s g rest :
  Clean.last_word U s = Some (g, rest) -> length g + length rest = length s.
Proof.
  unfold Clean.last_word. destruct (Clean.word_run U s) as [w r] eqn:E.
  apply word_run_length in E. destruct w; [discriminate|].
  intros H; inversion H; subst. lia.
Qed.

Lemma after_newline_total s : forall g rest,
  Clean.after_newline U s = Some (g, rest) ->
  length g + length rest <= length s.
Proof.
  induction s as [|c t IH]; simpl; intros g rest H; [discriminate|].
  destruct (isspace c).
  - destruct (Clean.after_newline U t) as [[g' r']|] eqn:E.
    + inversion H; subst. specialize (IH _ _ eq_refl). lia.
    + apply last_word_total in H. simpl in H. lia.
  - apply last_word_total in H. simpl in H. lia.
Qed.

Lemma after_hyphen_total s : forall g rest,
  Clean.after_hyphen U s = Some (g, rest) ->
  length g + length rest < length s.
Proof.
  induction s as [|c t IH]; simpl; intros g rest H; [discriminate|].
  assert (Hnl : (if (c =? LF)%N then Clean.after_newline U t else None)
                = Some (g, rest) -> length g + length rest < S (length t)).
  { destruct (c =? LF)%N; [|discriminate].
    intros E. apply after_newline_total in E. lia. }
  destruct (isspace c).
  - destruct (Clean.after_hyphen U t) as [[g' r']|] eqn:E.
    + inversion H; subst. specialize (IH _ _ eq_refl). lia.
    + auto.
  - auto.
Qed.

(** The hyphen and the line break of a match are lost, nothing is
    gained. *)
Lemma match_here_total s : forall g1 g2 rest,
  Clean.match_here U s = Some (g1, g2, rest) ->
  length g1 + length g2 + length rest + 2 <= length s.
Proof.
  induction s as [|c t IH]; simpl; intros g1 g2 rest H; [discriminate|].
  destruct (isword U c); [|discriminate].
  destruct (Clean.match_here U t) as [[[a b] r]|] eqn:E.
  - inversion H; subst. specialize (IH _ _ _ eq_refl). simpl. lia.
  - destruct t as [|d t']; [discriminate|].
    destruct (d =? HYPHEN)%N; [|discriminate].
    destruct (Clean.after_hyphen U t') as [[b r]|] eqn:E2; [|discriminate].
    inversion H; subst. apply after_hyphen_total in E2. simpl. lia.
Qed.

Lemma hyphen_sub_fuel_length n : forall s,
  length (Clean.hyphen_sub_fuel U n s) <= length s.
Proof.
  induction n as [|n IH]; intros s; [reflexivity|].
  simpl. destruct s as [|c t]; [reflexivity|].
  destruct (Clean.match_here U (c :: t)) as [[[g1 g2] rest]|] eqn:E.
  - apply match_here_total in E. rewrite !length_app.
    specialize (IH rest). simpl in E. simpl. lia.
  - simpl. specialize (IH t). lia.
Qed.

End CleanLengths.

Lemma join_cons_length sep p rest :
  length (join sep (p :: rest)) <= length p + length sep + length (join sep rest).
Proof.
  destruct rest as [|q rest'].
  - simpl. lia.
  - change (join sep (p :: q :: rest'))
      with (p ++ sep ++ join sep (q :: rest')).
    rewrite !length_app. lia.
Qed.

Lemma join_split_from_length s : forall w,
  length (join [SP] (split_from w s)) <= length w + length s.
Proof.
  induction s as [|c t IH]; intros w; simpl.
  - destruct w; simpl; lia.
  - destruct (isspace c).
    + destruct w as [|a w'].
      * specialize (IH []). simpl in IH. lia.
      * pose proof (join_cons_length [SP] (a :: w') (split_from [] t)) as J.
        specialize (IH []). simpl in *. lia.
    + specialize (IH (w ++ [c])). rewrite length_app in IH. simpl in IH. lia.
Qed.

(** X1: [clean_text] never returns more characters than it was given. *)
Theorem clean_text_never_longer (U : UCD) (s : str) :
  length (Clean.clean_text U s) <= length s.
Proof.
  destruct s as [|c t]; [reflexivity|]. unfold Clean.clean_text.
  set (h := Clean.hyphen_sub U (c :: t)).
  assert (Hh : length h <= length (c :: t))
    by apply hyphen_sub_fuel_length.
  set (r := remove_char SHY (remove_char SHY h)).
  assert (Hr : length r <= length h).
  { unfold r, remove_char.
    etransitivity; [apply filter_length_le | apply filter_length_le]. }
  pose proof (join_split_from_length (Clean.space_sub r) []) as J.
  unfold Clean.space_sub in *. rewrite space_sub_from_length in J.
  unfold split. simpl in J. lia.
Qed.

(** ** Texts without a line break *)

(** X3: on a text that holds no line feed and no soft hyphen,
    [clean_text] only normalises the whitespace: the result is the words
    of the text joined by single spaces, and a hyphen inside it stays. *)
Theorem clean_text_without_line_breaks (U : UCD) (s : str) :
  ~ In LF s -> ~ In SHY s ->
  Clean.clean_text U s = join [SP] (split s).
Proof.
  intros Hlf Hshy. destruct s as [|c t]; [reflexivity|].
  unfold Clean.clean_text.
  rewrite hyphen_sub_no_LF by assumption.
  rewrite (remove_char_id _ _ Hshy), (remove_char_id _ _ Hshy).
  unfold split, Clean.space_sub.
  now rewrite (split_from_pointwise (space_sub_from_pointwise (c :: t) None)).
Qed.

Lemma clean_text_without_line_breaks_witness :
  Clean.clean_text latin1 (lit "  a well-known   fact ")
  = join [SP] (split (lit "  a well-known   fact ")).
Proof.
  apply clean_text_without_line_breaks; vm_compute; intuition discriminate.
Defined.

(** ** Hyphenation repair *)

Section HyphenRepair.

Variable U : UCD.

Lemma word_run_app w : forall rest,
  Forall (fun c => isword U c = true) w -> word_ends U rest ->
  Clean.word_run U (w ++ rest) = (w, rest).
Proof.
  induction w as [|c w IH]; intros rest Hw Hrest.
  - simpl. destruct rest as [|d rest']; [reflexivity|].
    simpl in *. now rewrite Hrest.
  - inversion Hw as [|? ? Hc Hw']; subst. simpl. rewrite Hc.
    now rewrite IH.
Qed.

Lemma after_newline_blanks ws : forall w rest,
  Forall (blank U) ws -> w <> [] -> Forall (wordchar U) w ->
  word_ends U rest ->
  Clean.after_newline U (ws ++ w ++ rest) = Some (w, rest).
Proof.
  induction ws as [|c ws IH]; intros w rest Hws Hne Hw Hrest.
  - destruct w as [|a w']; [contradiction|].
    inversion Hw as [|? ? [Ha [Hsp _]] Hw']; subst.
    cbn [app Clean.after_newline]. rewrite Hsp.
    unfold Clean.last_word.
    change (a :: w' ++ rest) with ((a :: w') ++ rest).
    rewrite word_run_app; [reflexivity | | assumption].
    eapply Forall_impl; [|exact Hw]. now intros x [Hx _].
  - inversion Hws as [|? ? [Hc _] Hws']; subst.
    cbn [app Clean.after_newline]. rewrite Hc.
    now rewrite IH.
Qed.

(** Without a line feed in the whitespace the pattern does not match. *)
Lemma after_hyphen_no_break ws : forall w rest,
  Forall (blank U) ws -> ~ In LF ws -> w <> [] -> Forall (wordchar U) w ->
  Clean.after_hyphen U (ws ++ w ++ rest) = None.
Proof.
  induction ws as [|c ws IH]; intros w rest Hws Hlf Hne Hw.
  - destruct w as [|a w']; [contradiction|].
    inversion Hw as [|? ? [_ [Hsp _]] _]; subst.
    cbn [app Clean.after_hyphen]. rewrite Hsp.
    destruct (a =? LF)%N eqn:E; [|reflexivity].
    apply N.eqb_eq in E. subst. rewrite isspace_LF in Hsp. discriminate.
  - inversion Hws as [|? ? [Hc _] Hws']; subst.
    cbn [app Clean.after_hyphen]. rewrite Hc.
    rewrite IH; try assumption; [|intros H; apply Hlf; now right].
    destruct (c =? LF)%N eqn:E; [|reflexivity].
    apply N.eqb_eq in E. subst. exfalso. apply Hlf. now left.
Qed.

Lemma after_hyphen_break ws : forall w rest,
  Forall (blank U) ws -> In LF ws -> w <> [] -> Forall (wordchar U) w ->
  word_ends U rest ->
  Clean.after_hyphen U (ws ++ w ++ rest) = Some (w, rest).
Proof.
  induction ws as [|c ws IH]; intros w rest Hws Hlf Hne Hw Hrest;
    [contradiction|].
  inversion Hws as [|? ? [Hc _] Hws']; subst.
  cbn [app Clean.after_hyphen]. rewrite Hc.
  destruct (in_dec N.eq_dec LF ws) as [Hin | Hout].
  - now rewrite IH.
  - rewrite after_hyphen_no_break by assumption.
    destruct Hlf as [-> | Hin]; [|contradiction].
    rewrite N.eqb_refl. now apply after_newline_blanks.
Qed.

Lemma match_here_cons c t :
  Clean.match_here U (c :: t)
  = if isword U c then
      match Clean.match_here U t with
      | Some (g1, g2, rest) => Some (c :: g1, g2, rest)
      | None =>
          match t with
          | d :: t' =>
              if (d =? HYPHEN)%N then
                match Clean.after_hyphen U t' with
                | Some (g2, rest) => Some ([c], g2, rest)
                | None => None
                end
              else None
          | [] => None
          end
      end
    else None.
Proof. reflexivity. Qed.

Lemma match_here_hyphenated w1 : forall ws w2 rest,
  w1 <> [] -> Forall (wordchar U) w1 ->
  Forall (blank U) ws -> In LF ws -> w2 <> [] -> Forall (wordchar U) w2 ->
  word_ends U rest ->
  Clean.match_here U (w1 ++ [HYPHEN] ++ ws ++ w2 ++ rest)
  = Some (w1, w2, rest).
Proof.
  induction w1 as [|c w1 IH]; intros ws w2 rest Hne1 Hw1 Hws Hlf Hne2 Hw2 Hrest;
    [contradiction|].
  inversion Hw1 as [|? ? [Hc _] Hw1']; subst.
  change ((c :: w1) ++ [HYPHEN] ++ ws ++ w2 ++ rest)
    with (c :: (w1 ++ [HYPHEN] ++ ws ++ w2 ++ rest)).
  rewrite match_here_cons, Hc.
  destruct w1 as [|c2 w1'].
  - cbn [app]. rewrite match_here_cons.
    change (isword U HYPHEN) with false. cbv iota.
    rewrite N.eqb_refl. now rewrite after_hyphen_break.
  - rewrite (IH ws w2 rest); try assumption; [reflexivity | discriminate].
Qed.

Lemma hyphen_sub_hyphenated w1 ws w2 rest :
  w1 <> [] -> Forall (wordchar U) w1 ->
  Forall (blank U) ws -> In LF ws -> w2 <> [] -> Forall (wordchar U) w2 ->
  word_ends U rest ->
  Clean.hyphen_sub U (w1 ++ [HYPHEN] ++ ws ++ w2 ++ rest)
  = w1 ++ w2 ++ Clean.hyphen_sub U rest.
Proof.
  intros Hne1 Hw1 Hws Hlf Hne2 Hw2 Hrest.
  pose proof (@match_here_hyphenated w1 ws w2 rest
                Hne1 Hw1 Hws Hlf Hne2 Hw2 Hrest) as M.
  unfold Clean.hyphen_sub at 1.
  destruct (w1 ++ [HYPHEN] ++ ws ++ w2 ++ rest) as [|c t] eqn:E.
  - destruct w1; [contradiction | discriminate].
  - cbn [length Clean.hyphen_sub_fuel]. rewrite M.
    do 2 f_equal. apply hyphen_sub_fuel_stable; [|lia].
    apply match_here_shorter in M. simpl in M. lia.
Qed.

End HyphenRepair.

Lemma wordchars_spaceless U w : Forall (wordchar U) w -> spaceless w.
Proof.
  intros H. eapply Forall_impl; [|exact H]. now intros c [_ [Hc _]].
Qed.

(** X2: a word fragment, a hyphen, whitespace with at least one line feed
    in it and a second fragment are joined into one word, whatever the
    fragments and however long the whitespace. *)
Theorem clean_text_joins_hyphenated (U : UCD) (w1 ws w2 : str) :
  w1 <> [] -> Forall (wordchar U) w1 ->
  Forall (blank U) ws -> In LF ws ->
  w2 <> [] -> Forall (wordchar U) w2 ->
  Clean.clean_text U (w1 ++ [HYPHEN] ++ ws ++ w2) = w1 ++ w2.
Proof.
  intros Hne1 Hw1 Hws Hlf Hne2 Hw2.
  assert (Hsub : Clean.hyphen_sub U (w1 ++ [HYPHEN] ++ ws ++ w2) = w1 ++ w2).
  { rewrite <- (app_nil_r w2) at 1.
    rewrite hyphen_sub_hyphenated by (assumption || exact I).
    change (Clean.hyphen_sub U []) with (@nil N). now rewrite app_nil_r. }
  assert (Hall : Forall (wordchar U) (w1 ++ w2))
    by (apply Forall_app; now split).
  assert (Hshy : ~ In SHY (w1 ++ w2)).
  { intros Hin. rewrite Forall_forall in Hall.
    destruct (Hall _ Hin) as [_ [_ H]]. now apply H. }
  pose proof (wordchars_spaceless Hall) as Hsp.
  unfold Clean.clean_text.
  destruct (w1 ++ [HYPHEN] ++ ws ++ w2) as [|c t] eqn:E;
    [destruct w1; [contradiction | discriminate]|].
  rewrite Hsub, (remove_char_id _ _ Hshy), (remove_char_id _ _ Hshy).
  unfold Clean.space_sub. rewrite space_sub_from_id.
  - pose proof (@split_join [w1 ++ w2]) as SJ. cbn [join] in SJ.
    rewrite SJ; [reflexivity|]. constructor; [|constructor].
    split; [|assumption]. destruct w1; [contradiction | discriminate].
  - eapply Forall_impl; [|exact Hsp]. simpl. intros x Hx Hx'. congruence.
Qed.

Lemma clean_text_joins_hyphenated_witness :
  Clean.clean_text latin1
    (lit "hyphen" ++ [HYPHEN] ++ [SP; LF; 9; LF; SP]%N ++ lit "ation")
  = lit "hyphen" ++ lit "ation".
Proof.
  apply clean_text_joins_hyphenated;
    try discriminate;
    try (repeat constructor; discriminate);
    vm_compute; auto.
Defined.

(** ** What the table code can raise *)

Section TableErrors.

Variable U : UCD.
Variable intersects : Rect -> Rect -> bool.

Lemma index_raises {A : Type} (xs : list A) i msg :
  index xs i = Raise msg -> msg = lit "list index out of range".
Proof.
  unfold index. destruct (nth_error xs i); [discriminate|].
  intros H. now inversion H.
Qed.

Lemma any_filled_raises i data msg :
  Renderer.any_filled i data = Raise msg ->
  msg = lit "list index out of range".
Proof.
  induction data as [|row rest IH]; simpl; [discriminate|].
  destruct (index row i) as [c|e] eqn:E; cbn [bind].
  - destruct (Renderer.cell_filled c); [discriminate | exact IH].
  - intros H. inversion H; subst. now apply index_raises in E.
Qed.

Lemma valid_cols_from_raises n : forall i data msg,
  Renderer.valid_cols_from i n data = Raise msg ->
  msg = lit "list index out of range".
Proof.
  induction n as [|n IH]; intros i data msg; simpl; [discriminate|].
  destruct (Renderer.any_filled i data) as [v|e] eqn:E; cbn [bind].
  - destruct (Renderer.valid_cols_from (S i) n data) as [vs|e] eqn:E2;
      cbn [bind]; [discriminate|].
    intros H. inversion H; subst. now apply IH in E2.
  - intros H. inversion H; subst. now apply any_filled_raises in E.
Qed.

Lemma clean_row_from_raises valid : forall i row msg,
  Renderer.clean_row_from i valid row = Raise msg ->
  msg = lit "list index out of range".
Proof.
  induction valid as [|v vs IH]; intros i row msg; simpl; [discriminate|].
  destruct v; [|apply IH].
  destruct (index row i) as [c|e] eqn:E; cbn [bind].
  - destruct (Renderer.clean_row_from (S i) vs row) as [cs|e] eqn:E2;
      cbn [bind]; [discriminate|].
    intros H. inversion H; subst. now apply IH in E2.
  - intros H. inversion H; subst. now apply index_raises in E.
Qed.

Lemma render_rows_raises valid data : forall md header_done msg,
  Renderer.render_rows valid data md header_done = Raise msg ->
  msg = lit "list index out of range".
Proof.
  induction data as [|row rest IH]; intros md hd msg; simpl; [discriminate|].
  destruct (Renderer.clean_row_from 0 valid row) as [cr|e] eqn:E; cbn [bind].
  - destruct (negb (Renderer.any_text cr)); [apply IH|].
    destruct (negb hd); apply IH.
  - intros H. inversion H; subst. now apply clean_row_from_raises in E.
Qed.

Lemma render_table_raises data msg :
  Renderer.render_table data = Raise msg ->
  msg = lit "list index out of range".
Proof.
  unfold Renderer.render_table.
  destruct (Renderer.valid_columns data) as [valid|e] eqn:E; cbn [bind].
  - apply render_rows_raises.
  - intros H. inversion H; subst. unfold Renderer.valid_columns in E.
    destruct data; [discriminate|]. now apply valid_cols_from_raises in E.
Qed.

Lemma tables_loop_raises tabs : forall acc msg,
  Renderer.tables_loop U acc tabs = Raise msg ->
  msg = lit "list index out of range".
Proof.
  induction tabs as [|t rest IH]; intros [mds bbs] msg;
    cbn [Renderer.tables_loop]; [discriminate|].
  destruct (Renderer.render_table (extract t)) as [md|e] eqn:E.
  - rewrite (table_step_accepted U mds bbs t E). cbn [bind]. apply IH.
  - rewrite (table_step_raises U (mds, bbs) t E). cbn [bind].
    intros H. inversion H; subst. now apply render_table_raises in E.
Qed.

Lemma tables_loop_grids tabs : forall acc,
  Forall (fun t => exists w, rectangular w (extract t)) tabs ->
  exists acc', Renderer.tables_loop U acc tabs = Ok acc'.
Proof.
  induction tabs as [|t rest IH]; intros [mds bbs] H;
    cbn [Renderer.tables_loop]; [eexists; reflexivity|].
  inversion H as [|? ? [w Hrect] Hrest]; subst.
  assert (Hmd : exists md, Renderer.render_table (extract t) = Ok md).
  { destruct (extract t) as [|row rows] eqn:E.
    - exists []. apply render_table_nil.
    - eexists. apply (render_table_rect Hrect). }
  destruct Hmd as [md Hmd].
  rewrite (table_step_accepted U mds bbs t Hmd). cbn [bind].
  now apply IH.
Qed.

End TableErrors.

(** X4: on a page that the engine reads without an exception, the only
    exception the renderer can meet is the index error of a table row
    that is too short; the section then reads "Processing error: list
    index out of range". *)
Theorem page_error_is_index_error
  (U : UCD) (intersects : Rect -> Rect -> bool)
  (lines_tables text_tables : list Table) (blocks : list Block)
  (page_num : nat) (msg : str) :
  Renderer.render_page U intersects
    (Opened lines_tables text_tables blocks) page_num = Raise msg ->
  msg = lit "list index out of range"
  /\ Renderer.process_single_page U intersects
       (Opened lines_tables text_tables blocks) page_num
     = error_section page_num (lit "list index out of range").
Proof.
  intros H.
  assert (Hmsg : msg = lit "list index out of range").
  { unfold Renderer.render_page in H.
    destruct (Renderer.tables_loop U ([], []) _) as [[mds bbs]|e] eqn:E;
      cbn [bind] in H; [discriminate|].
    inversion H; subst. now apply tables_loop_raises in E. }
  split; [exact Hmsg|].
  unfold Renderer.process_single_page. rewrite H. now rewrite Hmsg.
Qed.

Lemma page_error_is_index_error_witness :
  lit "list index out of range" = lit "list index out of range"
  /\ Renderer.process_single_page latin1 Sample.no_overlap
       (Opened [Sample.ragged] [] []) 4
     = error_section 4 (lit "list index out of range").
Proof.
  apply (@page_error_is_index_error latin1 Sample.no_overlap
           [Sample.ragged] [] [] 4 (lit "list index out of range")).
  reflexivity.
Defined.

(** X5: when every table the page loop runs over is a grid, rows of
    equal length, nothing raises and the page gets a regular section,
    never an error section. *)
Theorem grids_never_raise
  (U : UCD) (intersects : Rect -> Rect -> bool)
  (lines_tables text_tables : list Table) (blocks : list Block)
  (page_num : nat) :
  Forall (fun t => exists w, rectangular w (extract t))
         (tabs_of lines_tables text_tables) ->
  exists section,
    Renderer.render_page U intersects
      (Opened lines_tables text_tables blocks) page_num = Ok section
    /\ Renderer.process_single_page U intersects
         (Opened lines_tables text_tables blocks) page_num = section.
Proof.
  intros H.
  destruct (tables_loop_grids U ([], []) H) as [[mds bbs] E].
  unfold Renderer.process_single_page, Renderer.render_page.
  fold (tabs_of lines_tables text_tables). rewrite E. cbn [bind].
  eexists. split; reflexivity.
Qed.

Lemma grids_never_raise_witness :
  exists section,
    Renderer.render_page latin1 Sample.same_row Sample.mixed_page 0
    = Ok section
    /\ Renderer.process_single_page latin1 Sample.same_row
         Sample.mixed_page 0 = section.
Proof.
  apply (@grids_never_raise latin1 Sample.same_row Sample.mixed_tables []
           Sample.mixed_blocks 0).
  repeat constructor. exists 2. repeat constructor.
Defined.

(** ** Tables without content *)

Lemma all_blank_column data k : all_blank data -> column_filled k data = false.
Proof.
  unfold column_filled. induction 1 as [|row rest Hrow Hrest IH];
    [reflexivity|].
  simpl. rewrite IH, orb_false_r.
  destruct (nth_error row k) as [c|] eqn:E; [|reflexivity].
  apply nth_error_In in E. rewrite Forall_forall in Hrow. now apply Hrow.
Qed.

Lemma pick_nothing valid : forall row,
  Forall (fun v => v = false) valid -> pick valid row = [].
Proof.
  induction valid as [|v vs IH]; intros row H; [reflexivity|].
  inversion H; subst. destruct row; [reflexivity|]. simpl. now apply IH.
Qed.

Lemma emitted_nothing rows : forall header_done,
  Forall (fun r => r = []) rows -> emitted rows header_done = [].
Proof.
  induction rows as [|r rest IH]; intros hd H; [reflexivity|].
  inversion H; subst. simpl. now apply IH.
Qed.

(** X6: a grid in which no cell is filled renders to the empty string,
    and the table is dropped: it adds no Markdown and no rectangle, so
    the text blocks that lie on it stay in the prose. *)
Theorem blank_table_is_dropped
  (U : UCD) (t : Table) (w : nat) (mds : list str) (bbs : list Rect) :
  rectangular w (extract t) -> all_blank (extract t) ->
  Renderer.render_table (extract t) = Ok []
  /\ accepted U t = false
  /\ Renderer.table_step U (mds, bbs) t = Ok (mds, bbs).
Proof.
  intros Hrect Hblank.
  assert (Hmd : Renderer.render_table (extract t) = Ok []).
  { destruct (extract t) as [|row rows] eqn:E; [reflexivity|].
    rewrite (render_table_rect Hrect).
    rewrite emitted_nothing; [reflexivity|].
    apply Forall_map. apply Forall_forall. intros r _.
    apply pick_nothing. apply Forall_map. apply Forall_forall.
    intros k _. now apply all_blank_column. }
  assert (Hacc : accepted U t = false)
    by (unfold accepted, markdown_of; now rewrite Hmd).
  split; [exact Hmd|]. split; [exact Hacc|].
  now rewrite (table_step_accepted U mds bbs t Hmd), Hacc.
Qed.

Lemma blank_table_is_dropped_witness :
  let t := {| extract := [[None; Some (lit " ")]; [Some []; Some [LF]]];
              bbox := Sample.at_row 10 |} in
  Renderer.render_table (extract t) = Ok []
  /\ accepted latin1 t = false
  /\ Renderer.table_step latin1 ([lit "x"], [Sample.at_row 5]) t
     = Ok ([lit "x"], [Sample.at_row 5]).
Proof.
  intros t.
  apply (@blank_table_is_dropped latin1 t 2); repeat constructor.
Defined.

(** ** One line for each row *)

Lemma lstrip_keeps (P : N -> Prop) s : Forall P s -> Forall P (lstrip s).
Proof.
  induction 1 as [|c t Hc Ht IH]; simpl; [constructor|].
  destruct (isspace c); [exact IH | now constructor].
Qed.

Lemma strip_keeps (P : N -> Prop) s : Forall P s -> Forall P (strip s).
Proof.
  intros H. unfold strip, rstrip.
  apply Forall_rev, lstrip_keeps, Forall_rev, lstrip_keeps, H.
Qed.

Lemma clean_cell_one_line c : ~ In LF (Renderer.clean_cell c).
Proof.
  assert (F : Forall (fun x => x <> LF) (Renderer.clean_cell c)).
  { destruct c as [[|a s]|]; simpl; try constructor.
    apply strip_keeps. unfold replace_char.
    change (match (a =? LF)%N with true => SP | false => a end
            :: map (fun e => if (e =? LF)%N then SP else e) s)
      with (map (fun e => if (e =? LF)%N then SP else e) (a :: s)).
    apply Forall_map. apply Forall_forall. intros x _.
    destruct (x =? LF)%N eqn:E; [discriminate | now apply N.eqb_neq]. }
  intros Hin. rewrite Forall_forall in F. now apply (F LF).
Qed.

Lemma pick_one_line valid : forall row,
  Forall (fun cell => ~ In LF cell) (pick valid row).
Proof.
  induction valid as [|v vs IH]; intros row; [constructor|].
  destruct row as [|c cs]; [constructor|]. simpl.
  destruct v; [constructor; [apply clean_cell_one_line | apply IH] | apply IH].
Qed.

Lemma emitted_one_line rows : forall header_done,
  Forall (Forall (fun cell => ~ In LF cell)) rows ->
  Forall (Forall (fun cell => ~ In LF cell)) (emitted rows header_done).
Proof.
  induction rows as [|r rest IH]; intros hd H; [constructor|].
  inversion H; subst. simpl.
  destruct (negb (Renderer.any_text r)); [now apply IH|].
  assert (D : Forall (fun cell => ~ In LF cell)
                (repeat (lit "---") (length r))).
  { apply Forall_forall. intros x Hx. apply repeat_spec in Hx. subst.
    simpl. intuition discriminate. }
  destruct hd; simpl; repeat constructor; auto.
Qed.

Lemma count_occ_join_one_line sep cells :
  count_occ N.eq_dec sep LF = 0 ->
  Forall (fun cell => ~ In LF cell) cells ->
  count_occ N.eq_dec (join sep cells) LF = 0.
Proof.
  intros Hsep. induction 1 as [|c rest Hc Hrest IH]; [reflexivity|].
  destruct rest as [|c2 rest'].
  - simpl. now apply count_occ_not_In.
  - change (join sep (c :: c2 :: rest'))
      with (c ++ sep ++ join sep (c2 :: rest')).
    rewrite !count_occ_app, Hsep, IH.
    apply (count_occ_not_In N.eq_dec) in Hc. lia.
Qed.

Lemma md_line_one_line cells :
  Forall (fun cell => ~ In LF cell) cells ->
  count_occ N.eq_dec (Renderer.md_line cells) LF = 1.
Proof.
  intros H. unfold Renderer.md_line. rewrite !count_occ_app.
  rewrite (count_occ_join_one_line (lit " | ")) by (reflexivity || assumption).
  reflexivity.
Qed.

Lemma lines_one_line lines :
  Forall (Forall (fun cell => ~ In LF cell)) lines ->
  count_occ N.eq_dec (concat (map Renderer.md_line lines)) LF = length lines.
Proof.
  induction 1 as [|l rest Hl Hrest IH]; [reflexivity|].
  cbn [map concat length]. rewrite count_occ_app, IH.
  now rewrite md_line_one_line.
Qed.

(** X7: the Markdown of a grid is a sequence of lines "| cell | ... |",
    as many lines as it has line feeds: no cell brings a line feed of its
    own, whatever line feeds the cells of the grid hold. *)
Theorem table_rows_are_single_lines
  (data : list (list cell)) (w : nat) (md : str) :
  rectangular w data -> Renderer.render_table data = Ok md ->
  exists lines,
    md = concat (map Renderer.md_line lines)
    /\ Forall (Forall (fun cell => ~ In LF cell)) lines
    /\ count_occ N.eq_dec md LF = length lines.
Proof.
  intros Hrect Hmd. destruct data as [|row rows].
  - rewrite render_table_nil in Hmd. inversion Hmd; subst.
    exists []. repeat split. constructor.
  - rewrite (render_table_rect Hrect) in Hmd. inversion Hmd; subst.
    eexists. split; [reflexivity|].
    assert (F : Forall (Forall (fun cell => ~ In LF cell))
                  (emitted
                     (map (pick (map (fun k => column_filled k (row :: rows))
                                     (seq 0 w))) (row :: rows)) false)).
    { apply emitted_one_line. apply Forall_map. apply Forall_forall.
      intros r _. apply pick_one_line. }
    split; [exact F | now apply lines_one_line].
Qed.

Lemma table_rows_are_single_lines_witness :
  exists lines,
    lit "| a b | c |" ++ [LF] ++ lit "| --- | --- |" ++ [LF]
    = concat (map Renderer.md_line lines)
    /\ Forall (Forall (fun cell => ~ In LF cell)) lines
    /\ count_occ N.eq_dec
         (lit "| a b | c |" ++ [LF] ++ lit "| --- | --- |" ++ [LF]) LF
       = length lines.
Proof.
  apply (@table_rows_are_single_lines
           [[Some (lit "a" ++ [LF] ++ lit "b"); Some ([LF] ++ lit "c")]] 2).
  - repeat constructor.
  - reflexivity.
Defined.

(** ** The order of the text blocks *)

Lemma key_le_spec a b :
  Renderer.key_le a b = true
  <-> (y0 (rect a) < y0 (rect b)
       \/ (y0 (rect a) == y0 (rect b) /\ x0 (rect a) <= x0 (rect b)))%Q.
Proof.
  unfold Renderer.key_le.
  destruct (Qcompare_spec (y0 (rect a)) (y0 (rect b))) as [Hy|Hy|Hy];
    [destruct (Qcompare_spec (x0 (rect a)) (x0 (rect b))) as [Hx|Hx|Hx]|..];
    split; intros H; try reflexivity; try discriminate;
    try (right; split; [assumption | lra]);
    try (now left);
    try (destruct H as [H | [H1 H2]]; lra).
Qed.

Lemma key_le_false a b :
  Renderer.key_le a b = false
  <-> (y0 (rect b) < y0 (rect a)
       \/ (y0 (rect a) == y0 (rect b) /\ x0 (rect b) < x0 (rect a)))%Q.
Proof.
  unfold Renderer.key_le.
  destruct (Qcompare_spec (y0 (rect a)) (y0 (rect b))) as [Hy|Hy|Hy];
    [destruct (Qcompare_spec (x0 (rect a)) (x0 (rect b))) as [Hx|Hx|Hx]|..];
    split; intros H; try reflexivity; try discriminate;
    try (right; split; [assumption | lra]);
    try (now left);
    try (destruct H as [H | [H1 H2]]; lra).
Qed.

Lemma key_before_trans a b c :
  key_before a b -> key_before b c -> key_before a c.
Proof.
  unfold key_before. rewrite !key_le_spec.
  intros [H1 | [H1 H1']] [H2 | [H2 H2']];
    try (left; lra); right; split; lra.
Qed.

Lemma key_before_total a b :
  Renderer.key_le a b = false -> key_before b a.
Proof.
  unfold key_before. rewrite key_le_false, key_le_spec.
  intros [H | [H H']]; [left; lra | right; split; lra].
Qed.

Lemma insert_block_perm b sorted :
  Permutation (b :: sorted) (Renderer.insert_block b sorted).
Proof.
  induction sorted as [|c rest IH]; simpl; [apply Permutation_refl|].
  destruct (Renderer.key_le b c); [apply Permutation_refl|].
  eapply Permutation_trans; [apply perm_swap|]. now apply perm_skip.
Qed.

Lemma insert_block_sorted b sorted :
  StronglySorted key_before sorted ->
  StronglySorted key_before (Renderer.insert_block b sorted).
Proof.
  induction 1 as [|c rest Hrest IH Hc]; simpl.
  - repeat constructor.
  - destruct (Renderer.key_le b c) eqn:E.
    + constructor; [now constructor|]. constructor; [exact E|].
      eapply Forall_impl; [|exact Hc]. intros x Hx.
      now apply key_before_trans with c.
    + constructor; [exact IH|].
      apply Forall_forall. intros x Hx. apply insert_block_In in Hx.
      destruct Hx as [-> | Hx]; [now apply key_before_total|].
      rewrite Forall_forall in Hc. now apply Hc.
Qed.

(** Blocks with the key of [k] stay in the order they came in. *)
Lemma insert_block_stable k b sorted :
  filter (same_key k) (Renderer.insert_block b sorted)
  = filter (same_key k) (b :: sorted).
Proof.
  induction sorted as [|c rest IH]; [reflexivity|].
  cbn [Renderer.insert_block]. destruct (Renderer.key_le b c) eqn:E;
    [reflexivity|].
  cbn [filter] in *. rewrite IH.
  destruct (same_key k b) eqn:Kb; [|reflexivity].
  assert (Kc : same_key k c = false).
  { unfold same_key in *. apply andb_prop in Kb. destruct Kb as [K1 K2].
    apply key_le_spec in K1, K2. apply key_le_false in E.
    apply andb_false_iff. left. apply key_le_false.
    destruct E as [E | [E E']]; [left; lra|].
    right. split; lra. }
  now rewrite Kc.
Qed.

(** X8: the text blocks are gone through in the order of their keys
    [(b[1], b[0])]: the sorted list holds the same blocks, each before all
    those with a larger or equal key, and blocks with equal keys keep the
    order in which the engine returned them. *)
Theorem blocks_sorted_stably (blocks : list Block) :
  Permutation blocks (Renderer.sort_blocks blocks)
  /\ StronglySorted key_before (Renderer.sort_blocks blocks)
  /\ (forall k, filter (same_key k) (Renderer.sort_blocks blocks)
                = filter (same_key k) blocks).
Proof.
  induction blocks as [|b rest [IHp [IHs IHk]]]; cbn [Renderer.sort_blocks].
  - repeat split; constructor.
  - split; [|split].
    + eapply Permutation_trans; [|apply insert_block_perm].
      now apply perm_skip.
    + now apply insert_block_sorted.
    + intros k. rewrite insert_block_stable. cbn [filter].
      now rewrite IHk.
Qed.

(** ** How a conversion ends *)

Lemma tasks_indices (pages : list Page) : forall k,
  map snd (combine pages (seq k (length pages))) = seq k (length pages).
Proof.
  induction pages as [|p ps IH]; intros k; [reflexivity|].
  simpl. now rewrite IH.
Qed.




(** X11: on success the handler opens the document, cuts out page 0,
    page 1, ... once each, closes the document, and only then submits
    the pages to the pool, each once and in page order. *)
Theorem pages_split_then_submitted
  (U : UCD) (intersects : Rect -> Rect -> bool) (cfg : Config)
  (file : UploadFile) (execution_time : Q)
  (trace : list event) (r : Response) :
  convert_pdf U intersects cfg file execution_time = (trace, Success r) ->
  trace = OpenDocument :: map SplitPage (seq 0 (pages_processed r))
            ++ CloseDocument :: map Submit (seq 0 (pages_processed r))
  /\ filter is_submit trace = map Submit (seq 0 (pages_processed r)).
Proof.
  unfold convert_pdf. intros H.
  destruct (negb (endswith (filename file) (lit ".pdf"))); [discriminate|].
  destruct (document file) as [msg|pages]; [discriminate|].
  destruct (Z.of_nat (length pages) >? MAX_PAGES cfg)%Z; [discriminate|].
  inversion H; subst; clear H. cbn [pages_processed].
  rewrite gather_length.
  assert (Hsplit : map (fun t : Page * nat => SplitPage (snd t)) (tasks_of pages)
                   = map SplitPage (seq 0 (length pages))).
  { unfold tasks_of. rewrite <- (tasks_indices pages 0) at 2.
    now rewrite map_map. }
  assert (Hsub : map (fun t : Page * nat => Submit (snd t)) (tasks_of pages)
                 = map Submit (seq 0 (length pages))).
  { unfold tasks_of. rewrite <- (tasks_indices pages 0) at 2.
    now rewrite map_map. }
  rewrite Hsplit, Hsub. split; [reflexivity|].
  cbn [filter is_submit]. rewrite filter_app. cbn [filter is_submit].
  assert (F1 : forall l, filter is_submit (map SplitPage l) = [])
    by (induction l; simpl; auto).
  assert (F2 : forall l, filter is_submit (map Submit l) = map Submit l)
    by (induction l; simpl; congruence).
  now rewrite F1, F2.
Qed.

Lemma pages_split_then_submitted_witness :
  exists trace r,
    convert_pdf latin1 Sample.no_overlap default_config Sample.three_pages 0
    = (trace, Success r)
    /\ trace = OpenDocument :: map SplitPage (seq 0 (pages_processed r))
                 ++ CloseDocument :: map Submit (seq 0 (pages_processed r))
    /\ filter is_submit trace = map Submit (seq 0 (pages_processed r)).
Proof.
  eexists; eexists. split; [reflexivity|].
  exact (@pages_split_then_submitted latin1 Sample.no_overlap default_config
           Sample.three_pages 0 _ _ eq_refl).
Defined.

(** X12: the sections of a response stand in page order: the content is
    the sections joined by the separator, and section number [j] opens
    with the heading "## Page j+1". *)
Theorem sections_in_page_order
  (U : UCD) (intersects : Rect -> Rect -> bool) (cfg : Config)
  (file : UploadFile) (execution_time : Q)
  (trace : list event) (r : Response) :
  convert_pdf U intersects cfg file execution_time = (trace, Success r) ->
  exists sections,
    content r = join separator sections
    /\ length sections = pages_processed r
    /\ forall j, j < pages_processed r ->
         exists section,
           nth_error sections j = Some section
           /\ startswith (lit "## Page " ++ str_of_nat (j + 1)) section = true.
Proof.
  unfold convert_pdf. intros H.
  destruct (negb (endswith (filename file) (lit ".pdf"))); [discriminate|].
  destruct (document file) as [msg|pages]; [discriminate|].
  destruct (Z.of_nat (length pages) >? MAX_PAGES cfg)%Z; [discriminate|].
  inversion H; subst; clear H. cbn [pages_processed content].
  exists (gather U intersects (tasks_of pages)).
  split; [reflexivity|]. split; [reflexivity|].
  rewrite gather_length. intros j Hj.
  destruct (nth_error pages j) as [p|] eqn:E;
    [|apply nth_error_None in E; lia].
  exists (Renderer.process_single_page U intersects p j).
  split; [now rewrite gather_nth, E|].
  apply section_starts_with_heading.
Qed.

Lemma sections_in_page_order_witness :
  exists trace r,
    convert_pdf latin1 Sample.no_overlap default_config Sample.three_pages 0
    = (trace, Success r)
    /\ exists sections,
         content r = join separator sections
         /\ length sections = pages_processed r
         /\ forall j, j < pages_processed r ->
              exists section,
                nth_error sections j = Some section
                /\ startswith (lit "## Page " ++ str_of_nat (j + 1)) section
                   = true.
Proof.
  eexists; eexists. split; [reflexivity|].
  exact (@sections_in_page_order latin1 Sample.no_overlap default_config
           Sample.three_pages 0 _ _ eq_refl).
Defined.

(** ** The size guard on other requests and at the limit *)

Lemma startswith_same_length a : forall b,
  length a = length b -> startswith a b = true -> a = b.
Proof.
  induction a as [|x a IH]; intros [|y b] Hlen H; try discriminate.
  - reflexivity.
  - simpl in *. apply andb_prop in H. destruct H as [Hxy H].
    apply N.eqb_eq in Hxy. subst. f_equal. apply IH; [lia | exact H].
Qed.

Lemma str_eqb_eq a b : str_eqb a b = true <-> a = b.
Proof.
  unfold str_eqb. split.
  - intros H. apply andb_prop in H. destruct H as [Hlen H].
    apply Nat.eqb_eq in Hlen. now apply startswith_same_length.
  - intros ->. rewrite Nat.eqb_refl. simpl.
    rewrite <- (app_nil_r b) at 2. apply startswith_app.
Qed.

(** X13: a request that is not a POST to /convert passes the size guard
    whatever its content-length header says, a number above the limit
    and a value that is no number included. *)
Theorem size_guard_only_on_convert
  (int : str -> option Z) (cfg : Config) (request : Request) :
  method request <> lit "POST" \/ path request <> lit "/convert" ->
  limit_upload_size int cfg request = CallNext.
Proof.
  intros H. unfold limit_upload_size.
  destruct (str_eqb (method request) (lit "POST")) eqn:Em;
    [|reflexivity].
  destruct (str_eqb (path request) (lit "/convert")) eqn:Ep;
    [|reflexivity].
  apply str_eqb_eq in Em, Ep. destruct H as [H|H]; contradiction.
Qed.

Lemma size_guard_only_on_convert_witness :
  limit_upload_size int_of_digits default_config
    {| method := lit "PUT"; path := lit "/convert";
       content_length := Some (lit "99999999999"); body := [] |} = CallNext.
Proof.
  apply size_guard_only_on_convert. left. discriminate.
Defined.

(** X14: on POST /convert with a non-empty content-length header, the
    guard hands the request on exactly when the header reads as a number
    that is at most MAX_FILE_SIZE (the limit itself passes), answers 413
    exactly when it reads as a larger number, and raises exactly when it
    reads as no number. *)
Theorem size_guard_at_the_limit
  (int : str -> option Z) (cfg : Config) (v : str) (body0 : list N) :
  v <> [] ->
  let verdict :=
    limit_upload_size int cfg
      {| method := lit "POST"; path := lit "/convert";
         content_length := Some v; body := body0 |} in
  (verdict = CallNext
   <-> exists n, int v = Some n /\ (n <= MAX_FILE_SIZE cfg)%Z)
  /\ ((exists detail, verdict = JSONResponse 413 detail)
      <-> exists n, int v = Some n /\ (n > MAX_FILE_SIZE cfg)%Z)
  /\ (verdict = ValueError <-> int v = None).
Proof.
  intros Hv verdict. unfold verdict, limit_upload_size.
  cbn [method path content_length].
  change (str_eqb (lit "POST") (lit "POST")
          && str_eqb (lit "/convert") (lit "/convert")) with true.
  cbv iota. destruct v as [|c v']; [contradiction|].
  destruct (int (c :: v')) as [n|].
  - destruct (n >? MAX_FILE_SIZE cfg)%Z eqn:E.
    + apply Z.gtb_gt in E. repeat split; try discriminate.
      * intros [m [Hm Hle]]. inversion Hm; subst. lia.
      * intros _. now exists n.
      * intros _. eexists. reflexivity.
    + rewrite Z.gtb_ltb in E. apply Z.ltb_ge in E.
      repeat split; try discriminate.
      * intros _. now exists n.
      * intros [d Hd]. discriminate.
      * intros [m [Hm Hgt]]. inversion Hm; subst. lia.
  - repeat split; try discriminate; try reflexivity.
    + intros [m [Hm _]]. discriminate.
    + intros [d Hd]. discriminate.
    + intros [m [Hm _]]. discriminate.
Qed.

Lemma size_guard_at_the_limit_witness :
  let verdict :=
    limit_upload_size int_of_digits default_config
      {| method := lit "POST"; path := lit "/convert";
         content_length := Some (lit "52428800"); body := [] |} in
  (verdict = CallNext
   <-> exists n, int_of_digits (lit "52428800") = Some n
                 /\ (n <= MAX_FILE_SIZE default_config)%Z)
  /\ ((exists detail, verdict = JSONResponse 413 detail)
      <-> exists n, int_of_digits (lit "52428800") = Some n
                    /\ (n > MAX_FILE_SIZE default_config)%Z)
  /\ (verdict = ValueError <-> int_of_digits (lit "52428800") = None).
Proof.
  apply (@size_guard_at_the_limit int_of_digits default_config
           (lit "52428800") []).
  discriminate.
Defined.

(** ** The configured limit and the message of the guard *)

(** X15: the limit in bytes is the configured number of megabytes (50
    when MAX_FILE_SIZE_MB is not set) times 1024 * 1024, and the 413
    answer of the guard names that number of megabytes again. *)
Theorem configured_megabytes_reported
  (int : str -> option Z) (lower : str -> str) (getenv : str -> option str)
  (s : Settings.Settings) :
  Settings.load int lower getenv = Some s ->
  exists megabytes,
    Settings.getenv_int int getenv (lit "MAX_FILE_SIZE_MB") 50
    = Some megabytes
    /\ MAX_FILE_SIZE (Settings.limits s) = (megabytes * 1024 * 1024)%Z
    /\ forall v n body0,
         v <> [] -> int v = Some n ->
         (n > MAX_FILE_SIZE (Settings.limits s))%Z ->
         limit_upload_size int (Settings.limits s)
           {| method := lit "POST"; path := lit "/convert";
              content_length := Some v; body := body0 |}
         = JSONResponse 413
             (lit "File too large. Maximum allowed size is "
                ++ str_of_Z megabytes ++ lit "MB.").
Proof.
  unfold Settings.load. intros H.
  destruct (Settings.getenv_int int getenv (lit "APP_PORT") 8000);
    [|discriminate].
  destruct (Settings.getenv_int int getenv (lit "MAX_WORKERS") 4);
    [|discriminate].
  destruct (Settings.getenv_int int getenv (lit "MAX_FILE_SIZE_MB") 50)
    as [megabytes|]; [|discriminate].
  destruct (Settings.getenv_int int getenv (lit "MAX_PAGES") 300);
    [|discriminate].
  inversion H; subst; clear H. cbn [Settings.limits MAX_FILE_SIZE].
  exists megabytes. split; [reflexivity|]. split; [reflexivity|].
  intros v n body0 Hv Hn Hgt. unfold limit_upload_size.
  cbn [method path content_length MAX_FILE_SIZE].
  change (str_eqb (lit "POST") (lit "POST")
          && str_eqb (lit "/convert") (lit "/convert")) with true.
  cbv iota. destruct v as [|c v']; [contradiction|].
  rewrite Hn. apply Z.gtb_gt in Hgt. rewrite Hgt.
  replace (megabytes * 1024 * 1024 / (1024 * 1024))%Z with megabytes;
    [reflexivity|].
  rewrite <- Z.mul_assoc. symmetry. apply Z.div_mul. discriminate.
Qed.

Lemma configured_megabytes_reported_witness :
  exists s,
    Settings.load int_of_digits (fun x => x) sample_env = Some s
    /\ exists megabytes,
         Settings.getenv_int int_of_digits sample_env
           (lit "MAX_FILE_SIZE_MB") 50 = Some megabytes
         /\ MAX_FILE_SIZE (Settings.limits s) = (megabytes * 1024 * 1024)%Z
         /\ forall v n body0,
              v <> [] -> int_of_digits v = Some n ->
              (n > MAX_FILE_SIZE (Settings.limits s))%Z ->
              limit_upload_size int_of_digits (Settings.limits s)
                {| method := lit "POST"; path := lit "/convert";
                   content_length := Some v; body := body0 |}
              = JSONResponse 413
                  (lit "File too large. Maximum allowed size is "
                     ++ str_of_Z megabytes ++ lit "MB.").
Proof.
  eexists. split; [reflexivity|].
  exact (@configured_megabytes_reported int_of_digits (fun x => x)
           sample_env _ eq_refl).
Defined.
